(** * StateQL: the field-grammar parser and the relational schema compiler

    A shallow embedding of [parser.ParseStateQL] (with [parseField],
    [parseActionArgs], [parseFunctionArgs]) and of [db.SchemaGenerator]
    ([GenerateSchema], [createTable], [createRelationships],
    [mapTypeToPostgres]), followed by the properties of the specification
    that concern them.

    Go strings are byte strings: they are modelled by [string], whose
    characters ([ascii]) are the bytes.  A Go panic (here: a slice expression
    out of range) is the [Panicked] outcome. *)

From Stdlib Require Import ZArith NArith Ascii String List Bool Lia.
From stdpp Require Import base option list gmap strings.

Local Open Scope Z_scope.

(** ** Outcomes: a Go call either returns a value or panics *)

Inductive outcome (A : Type) : Type :=
| Returned (a : A)
| Panicked.
Arguments Returned {A} a.
Arguments Panicked {A}.

#[global] Instance outcome_ret : MRet outcome := fun A a => Returned a.
#[global] Instance outcome_bind : MBind outcome := fun A B k m =>
  match m with
  | Returned a => k a
  | Panicked => Panicked
  end.

(** ** The functions of Go's [strings] package that the program calls *)

Module GoStrings.

Definition LF : ascii := "010"%char.
Definition CR : ascii := "013"%char.
Definition TAB : ascii := "009"%char.
Definition DQUOTE : ascii := "034"%char.

(** [len(s)], as a Go [int]. *)
Definition len (s : string) : Z := Z.of_nat (String.length s).

Fixpoint dropBytes (n : nat) (s : string) : string :=
  match n, s with
  | O, _ => s
  | S k, String _ s' => dropBytes k s'
  | S _, EmptyString => EmptyString
  end.

Fixpoint takeBytes (n : nat) (s : string) : string :=
  match n, s with
  | S k, String c s' => String c (takeBytes k s')
  | _, _ => EmptyString
  end.

(** The slice expression [s[lo:hi]]: it panics unless
    [0 <= lo <= hi <= len(s)]. *)
Definition slice (s : string) (lo hi : Z) : outcome string :=
  if (0 <=? lo) && (lo <=? hi) && (hi <=? len s)
  then Returned (takeBytes (Z.to_nat (hi - lo)) (dropBytes (Z.to_nat lo) s))
  else Panicked.

Fixpoint HasPrefix (s prefix : string) : bool :=
  match prefix, s with
  | EmptyString, _ => true
  | String p prefix', String c s' => Ascii.eqb c p && HasPrefix s' prefix'
  | String _ _, EmptyString => false
  end.

(** [len(s) >= len(suffix) && s[len(s)-len(suffix):] == suffix] *)
Definition HasSuffix (s suffix : string) : bool :=
  (String.length suffix <=? String.length s)%nat
  && String.eqb (dropBytes (String.length s - String.length suffix) s) suffix.

Definition TrimPrefix (s prefix : string) : string :=
  if HasPrefix s prefix then dropBytes (String.length prefix) s else s.

Definition TrimSuffix (s suffix : string) : string :=
  if HasSuffix s suffix
  then takeBytes (String.length s - String.length suffix) s
  else s.

(** [strings.Index]: the byte offset of the first occurrence of [substr]
    in [s], or [-1]. *)
Fixpoint Index (s substr : string) : Z :=
  if HasPrefix s substr then 0
  else match s with
       | EmptyString => -1
       | String _ s' =>
           let i := Index s' substr in
           if i <? 0 then -1 else i + 1
       end.

Definition Contains (s substr : string) : bool := 0 <=? Index s substr.

(** [strings.Split(s, sep)] for a non-empty [sep]: the pieces of [s]
    between the successive, non-overlapping occurrences of [sep] found
    from the left.  [skip] counts the bytes of a separator just matched
    that are still to be passed over; the head of the result is the piece
    under construction. *)
Fixpoint split_go (sep : string) (skip : nat) (s : string) : list string :=
  match s with
  | EmptyString => [EmptyString]
  | String c s' =>
      match skip with
      | S k => split_go sep k s'
      | O =>
          if HasPrefix s sep
          then EmptyString :: split_go sep (String.length sep - 1) s'
          else match split_go sep 0 s' with
               | piece :: pieces => String c piece :: pieces
               | [] => [String c EmptyString]
               end
      end
  end.

Definition Split (s sep : string) : list string := split_go sep 0 s.

(** [strings.Join] *)
Fixpoint Join (elems : list string) (sep : string) : string :=
  match elems with
  | [] => EmptyString
  | [e] => e
  | e :: rest => e +:+ sep +:+ Join rest sep
  end.

(** *** White space

    [unicode.IsSpace] holds of the runes U+0009..U+000D, U+0020, U+0085,
    U+00A0, U+1680, U+2000..U+200A, U+2028, U+2029, U+202F, U+205F and
    U+3000.  On the UTF-8 bytes of a string: [spaceWidth s] is the number
    of bytes of the white-space rune that [s] starts with, and [0] when it
    starts with none.  A byte that starts one of these encodings is never
    a continuation byte, and an invalid byte decodes to U+FFFD of width
    one, so scanning bytes and scanning runes find the same white space. *)

Definition asciiSpace (c : ascii) : bool :=
  let n := N_of_ascii c in
  ((9 <=? n) && (n <=? 13) || (n =? 32))%N.

Definition isSpace2 (c1 c2 : ascii) : bool :=
  let n1 := N_of_ascii c1 in
  let n2 := N_of_ascii c2 in
  ((n1 =? 194) && ((n2 =? 133) || (n2 =? 160)))%N.

Definition isSpace3 (c1 c2 c3 : ascii) : bool :=
  let n1 := N_of_ascii c1 in
  let n2 := N_of_ascii c2 in
  let n3 := N_of_ascii c3 in
  ((n1 =? 225) && (n2 =? 154) && (n3 =? 128)
   || (n1 =? 226) && (n2 =? 128)
      && ((128 <=? n3) && (n3 <=? 138) || (n3 =? 168) || (n3 =? 169) || (n3 =? 175))
   || (n1 =? 226) && (n2 =? 129) && (n3 =? 159)
   || (n1 =? 227) && (n2 =? 128) && (n3 =? 128))%N.

Definition spaceWidth (s : string) : nat :=
  match s with
  | String c1 s1 =>
      if asciiSpace c1 then 1%nat
      else match s1 with
           | String c2 s2 =>
               if isSpace2 c1 c2 then 2%nat
               else match s2 with
                    | String c3 _ => if isSpace3 c1 c2 c3 then 3%nat else 0%nat
                    | EmptyString => 0%nat
                    end
           | EmptyString => 0%nat
           end
  | EmptyString => 0%nat
  end.

(** The same test on a reversed string: the width of the white-space rune
    that the original string ends with. *)
Definition spaceWidthRev (r : string) : nat :=
  match r with
  | String c1 r1 =>
      if asciiSpace c1 then 1%nat
      else match r1 with
           | String c2 r2 =>
               if isSpace2 c2 c1 then 2%nat
               else match r2 with
                    | String c3 _ => if isSpace3 c3 c2 c1 then 3%nat else 0%nat
                    | EmptyString => 0%nat
                    end
           | EmptyString => 0%nat
           end
  | EmptyString => 0%nat
  end.

(** [strings.TrimLeftFunc(s, unicode.IsSpace)] *)
Fixpoint trimLeftSpace (s : string) : string :=
  match s with
  | EmptyString => EmptyString
  | String c1 s1 =>
      if asciiSpace c1 then trimLeftSpace s1
      else match s1 with
           | String c2 s2 =>
               if isSpace2 c1 c2 then trimLeftSpace s2
               else match s2 with
                    | String c3 s3 =>
                        if isSpace3 c1 c2 c3 then trimLeftSpace s3 else s
                    | EmptyString => s
                    end
           | EmptyString => s
           end
  end.

(** The reversed string with the white space it starts with removed, for
    [strings.TrimRightFunc(s, unicode.IsSpace)]. *)
Fixpoint trimLeftSpaceRev (r : string) : string :=
  match r with
  | EmptyString => EmptyString
  | String c1 r1 =>
      if asciiSpace c1 then trimLeftSpaceRev r1
      else match r1 with
           | String c2 r2 =>
               if isSpace2 c2 c1 then trimLeftSpaceRev r2
               else match r2 with
                    | String c3 r3 =>
                        if isSpace3 c3 c2 c1 then trimLeftSpaceRev r3 else r
                    | EmptyString => r
                    end
           | EmptyString => r
           end
  end.

Definition trimRightSpace (s : string) : string :=
  String.rev (trimLeftSpaceRev (String.rev s)).

Definition TrimSpace (s : string) : string :=
  trimRightSpace (trimLeftSpace s).

(** [strings.Fields]: the maximal runs of bytes of [s] that hold no white
    space.  [fields_go skip s] is the field that starts where [s] starts
    (empty when white space starts there) and the fields after it; [skip]
    counts the bytes of a white-space rune still to be passed over. *)
Definition flush (cur : string) : list string :=
  match cur with
  | EmptyString => []
  | _ => [cur]
  end.

Fixpoint fields_go (skip : nat) (s : string) : string * list string :=
  match s with
  | EmptyString => (EmptyString, [])
  | String c s' =>
      match skip with
      | S k => let '(cur, rest) := fields_go k s' in (EmptyString, flush cur ++ rest)
      | O =>
          match spaceWidth s with
          | O => let '(cur, rest) := fields_go 0 s' in (String c cur, rest)
          | S w => let '(cur, rest) := fields_go w s' in (EmptyString, flush cur ++ rest)
          end
      end
  end.

Definition Fields (s : string) : list string :=
  let '(cur, rest) := fields_go 0 s in flush cur ++ rest.

(** [strings.Trim(s, cutset)] for a cutset of ASCII characters: every
    leading and every trailing byte of [s] that is in [cutset] is
    removed. *)
Fixpoint inCutset (c : ascii) (cutset : string) : bool :=
  match cutset with
  | EmptyString => false
  | String d cutset' => Ascii.eqb c d || inCutset c cutset'
  end.

Fixpoint trimLeftCut (s cutset : string) : string :=
  match s with
  | EmptyString => EmptyString
  | String c s' => if inCutset c cutset then trimLeftCut s' cutset else s
  end.

Definition Trim (s cutset : string) : string :=
  String.rev (trimLeftCut (String.rev (trimLeftCut s cutset)) cutset).

(** [strings.ToLower].  A string of ASCII bytes is mapped byte by byte
    ('A'..'Z' to 'a'..'z'); a string with a byte of [0x80] or more goes
    through [strings.Map(unicode.ToLower, s)], which depends on the Unicode
    case tables: that part is the parameter [unicodeLower]. *)
Definition isASCIIByte (c : ascii) : bool := (N_of_ascii c <? 128)%N.

Fixpoint isASCII (s : string) : bool :=
  match s with
  | EmptyString => true
  | String c s' => isASCIIByte c && isASCII s'
  end.

Definition lowerByte (c : ascii) : ascii :=
  let n := N_of_ascii c in
  if ((65 <=? n) && (n <=? 90))%N then ascii_of_N (n + 32) else c.

Fixpoint lowerASCII (s : string) : string :=
  match s with
  | EmptyString => EmptyString
  | String c s' => String (lowerByte c) (lowerASCII s')
  end.

Definition ToLower (unicodeLower : string -> string) (s : string) : string :=
  if isASCII s then lowerASCII s else unicodeLower s.

End GoStrings.

Import GoStrings.

(** ** [bufio.Scanner] over the source text, with the default split function
    [bufio.ScanLines] *)

Module bufio.

(** The text cut at every line feed; nothing follows a final line feed. *)
Fixpoint rawLines (s : string) : list string :=
  match s with
  | EmptyString => []
  | String c s' =>
      if Ascii.eqb c LF then EmptyString :: rawLines s'
      else match rawLines s' with
           | l :: ls => String c l :: ls
           | [] => [String c EmptyString]
           end
  end.

(** The scanner's buffer grows to [MaxScanTokenSize] bytes at most: a line
    of that many bytes or more (before its line feed) ends the scan with
    [ErrTooLong], which [Scan] reports by returning [false]. *)
Definition MaxScanTokenSize : N := 65536.

Definition fits (l : string) : bool :=
  (N.of_nat (String.length l) <? MaxScanTokenSize)%N.

Fixpoint untilTooLong (ls : list string) : list string :=
  match ls with
  | [] => []
  | l :: ls' => if fits l then l :: untilTooLong ls' else []
  end.

(** [dropCR]: a line loses one final carriage return. *)
Definition dropCR (l : string) : string := TrimSuffix l (String CR EmptyString).

(** The values of [scanner.Text()] over the successful calls of
    [scanner.Scan()]. *)
Definition scanLines (content : string) : list string :=
  map dropCR (untilTooLong (rawLines content)).

End bufio.

(** ** Package [parser] *)

Module Field.
Record t : Type := mk {
  Name : string;
  Type_ : string;
  IsMany : bool;
  Through : string;
  IsAction : bool;
  ActionType : string;
  (** a Go map; [None] is the nil map *)
  ActionArgs : option (gmap string string);
  RequiredParams : list string;
  FunctionName : string;
  FunctionArgs : list string
}.

(** [Field{}] *)
Definition zero : t :=
  mk EmptyString EmptyString false EmptyString false EmptyString None [] EmptyString [].

Definition set_Name (v : string) (f : t) : t :=
  mk v (Type_ f) (IsMany f) (Through f) (IsAction f) (ActionType f)
     (ActionArgs f) (RequiredParams f) (FunctionName f) (FunctionArgs f).
Definition set_Type (v : string) (f : t) : t :=
  mk (Name f) v (IsMany f) (Through f) (IsAction f) (ActionType f)
     (ActionArgs f) (RequiredParams f) (FunctionName f) (FunctionArgs f).
Definition set_IsMany (v : bool) (f : t) : t :=
  mk (Name f) (Type_ f) v (Through f) (IsAction f) (ActionType f)
     (ActionArgs f) (RequiredParams f) (FunctionName f) (FunctionArgs f).
Definition set_Through (v : string) (f : t) : t :=
  mk (Name f) (Type_ f) (IsMany f) v (IsAction f) (ActionType f)
     (ActionArgs f) (RequiredParams f) (FunctionName f) (FunctionArgs f).
Definition set_IsAction (v : bool) (f : t) : t :=
  mk (Name f) (Type_ f) (IsMany f) (Through f) v (ActionType f)
     (ActionArgs f) (RequiredParams f) (FunctionName f) (FunctionArgs f).
Definition set_ActionType (v : string) (f : t) : t :=
  mk (Name f) (Type_ f) (IsMany f) (Through f) (IsAction f) v
     (ActionArgs f) (RequiredParams f) (FunctionName f) (FunctionArgs f).
Definition set_ActionArgs (v : option (gmap string string)) (f : t) : t :=
  mk (Name f) (Type_ f) (IsMany f) (Through f) (IsAction f) (ActionType f)
     v (RequiredParams f) (FunctionName f) (FunctionArgs f).
Definition set_RequiredParams (v : list string) (f : t) : t :=
  mk (Name f) (Type_ f) (IsMany f) (Through f) (IsAction f) (ActionType f)
     (ActionArgs f) v (FunctionName f) (FunctionArgs f).
Definition set_FunctionName (v : string) (f : t) : t :=
  mk (Name f) (Type_ f) (IsMany f) (Through f) (IsAction f) (ActionType f)
     (ActionArgs f) (RequiredParams f) v (FunctionArgs f).
Definition set_FunctionArgs (v : list string) (f : t) : t :=
  mk (Name f) (Type_ f) (IsMany f) (Through f) (IsAction f) (ActionType f)
     (ActionArgs f) (RequiredParams f) (FunctionName f) v.
End Field.

Module Entity.
Record t : Type := mk {
  Name : string;
  Fields : list Field.t
}.

Definition add_Field (f : Field.t) (e : t) : t := mk (Name e) (Fields e ++ [f]).
End Entity.

Module StateQL.
Record t : Type := mk {
  Entities : list Entity.t
}.
End StateQL.

(** Go's [error]; [None] is [nil]. *)
Definition error : Type := string.

Module parser.

(** The body of the loop of [parseActionArgs], at index [i] of [parts]. *)
Definition actionArgStep (i : nat) (raw : string)
    (acc : gmap string string * list string) : gmap string string * list string :=
  let '(result, requiredParams) := acc in
  let part := TrimSpace raw in
  if HasPrefix part ":" then
    let paramName := TrimPrefix part ":" in
    (result, requiredParams ++ [paramName])
  else if Contains part "=" then
    let kv := Split part "=" in
    if (length kv =? 2)%nat
    then (<[TrimSpace (nth 0 kv EmptyString) := TrimSpace (nth 1 kv EmptyString)]> result,
          requiredParams)
    else (result, requiredParams)
  else if (i =? 0)%nat then (<["arg1" := part]> result, requiredParams)
  else if (i =? 1)%nat then (<["arg2" := part]> result, requiredParams)
  else (result, requiredParams).

Fixpoint actionArgLoop (i : nat) (parts : list string)
    (acc : gmap string string * list string) : gmap string string * list string :=
  match parts with
  | [] => acc
  | raw :: parts' => actionArgLoop (S i) parts' (actionArgStep i raw acc)
  end.

Definition parseActionArgs (args : string) : gmap string string * list string :=
  actionArgLoop 0 (GoStrings.Fields args) (∅, []).

(** The body of the loop of [parseFunctionArgs]. *)
Definition functionArgStep (result : list string) (raw : string) : list string :=
  let part := TrimSpace raw in
  let part :=
    if HasPrefix part (String DQUOTE EmptyString) && HasSuffix part (String DQUOTE EmptyString)
    then Trim part (String DQUOTE EmptyString)
    else part in
  result ++ [part].

Definition parseFunctionArgs (args : string) : list string :=
  fold_left functionArgStep (GoStrings.Fields args) [].

Definition parseField (line : string) : outcome Field.t :=
  let line := TrimPrefix line "- " in
  let line := TrimSpace line in
  let parts := Split line " is " in
  if negb (length parts =? 2)%nat then mret Field.zero
  else
    let name := TrimSpace (nth 0 parts EmptyString) in
    let typeDef := TrimSpace (nth 1 parts EmptyString) in
    let field := Field.set_Name name Field.zero in
    if HasPrefix typeDef "action" then
      let field := Field.set_IsAction true field in
      let actionParts := Split typeDef " thru " in
      if (length actionParts =? 2)%nat then
        let field := Field.set_ActionType (TrimSpace (nth 1 actionParts EmptyString)) field in
        if Contains (Field.ActionType field) "(" then
          actionName ← slice (Field.ActionType field) 0 (Index (Field.ActionType field) "(");
          args ← slice (Field.ActionType field)
                   (Index (Field.ActionType field) "(" + 1)
                   (Index (Field.ActionType field) ")");
          let field := Field.set_ActionType actionName field in
          let '(actionArgs, requiredParams) := parseActionArgs args in
          mret (Field.set_RequiredParams requiredParams
                  (Field.set_ActionArgs (Some actionArgs) field))
        else mret field
      else mret field
    else if HasPrefix typeDef "many" then
      let field := Field.set_IsMany true field in
      let throughParts := Split typeDef " thru " in
      if (length throughParts =? 2)%nat
      then mret (Field.set_Through (TrimSpace (nth 1 throughParts EmptyString)) field)
      else mret field
    else if Contains typeDef " thru " then
      let parts := Split typeDef " thru " in
      let field := Field.set_Type (TrimSpace (nth 0 parts EmptyString)) field in
      let functionDef := TrimSpace (nth 1 parts EmptyString) in
      if Contains functionDef "(" then
        functionName ← slice functionDef 0 (Index functionDef "(");
        let field := Field.set_FunctionName functionName field in
        args ← slice functionDef (Index functionDef "(" + 1) (Index functionDef ")");
        mret (Field.set_FunctionArgs (parseFunctionArgs args) field)
      else mret field
    else mret (Field.set_Type typeDef field).

(** The variables of [ParseStateQL]'s loop.  [currentEntity] points into
    [stateql.Entities]: it is the index of the element it points to. *)
Record scanState : Type := mkScanState {
  stateql : StateQL.t;
  currentEntity : option nat
}.

Definition initialState : scanState := mkScanState (StateQL.mk []) None.

(** One iteration of the loop, on the text [scanner.Text()] of the line. *)
Definition parseLine (text : string) (st : scanState) : outcome scanState :=
  let line := TrimSpace text in
  if String.eqb line EmptyString then mret st
  else if negb (HasPrefix line "-") then
    let entityName := TrimSuffix line ":" in
    let entity := Entity.mk entityName [] in
    let entities := StateQL.Entities (stateql st) ++ [entity] in
    mret (mkScanState (StateQL.mk entities) (Some (length entities - 1)%nat))
  else
    match currentEntity st with
    | Some i =>
        field ← parseField line;
        mret (mkScanState
                (StateQL.mk (alter (Entity.add_Field field) i (StateQL.Entities (stateql st))))
                (currentEntity st))
    | None => mret st
    end.

Fixpoint parseLines (texts : list string) (st : scanState) : outcome scanState :=
  match texts with
  | [] => mret st
  | text :: texts' => st' ← parseLine text st; parseLines texts' st'
  end.

Definition ParseStateQL (content : string) : outcome (StateQL.t * option error) :=
  st ← parseLines (bufio.scanLines content) initialState;
  mret (stateql st, None).

End parser.

(** ** Package [db]: the schema generator

    [sg.db.Exec(sql).Error] is the one capability used of the relational
    store.  The store is a parameter: a type [DB] of store states and a
    function [Exec] giving, for a statement and a state, the next state and
    the error ([None] for [nil]).  A [session] pairs the store state with
    the statements issued so far, in order. *)

Module db.
Section SchemaGenerator.

(** [strings.Map(unicode.ToLower, s)] on strings that are not ASCII. *)
Variable unicodeLower : string -> string.
Variable DB : Type.
Variable Exec : string -> DB -> DB * option error.

Definition ToLower : string -> string := GoStrings.ToLower unicodeLower.

Record session : Type := mkSession {
  store : DB;
  issued : list string
}.

Definition exec (sql : string) (s : session) : session * option error :=
  let '(d, err) := Exec sql (store s) in
  (mkSession d (issued s ++ [sql]), err).

(** A [for] loop over [l] whose body returns from the function on an
    error. *)
Fixpoint forEach {A : Type} (body : A -> session -> session * option error)
    (l : list A) (s : session) : session * option error :=
  match l with
  | [] => (s, None)
  | x :: l' =>
      let '(s', err) := body x s in
      match err with
      | Some e => (s', Some e)
      | None => forEach body l' s'
      end
  end.

Definition mapTypeToPostgres (stateqlType : string) : string :=
  let t := ToLower stateqlType in
  if String.eqb t "text" then "TEXT"
  else if String.eqb t "number" then "NUMERIC"
  else if String.eqb t "switch" then "BOOLEAN"
  else if String.eqb t "date" then "DATE"
  else if String.eqb t "timestamp" then "TIMESTAMP"
  else if String.eqb t "seconds" then "INTEGER"
  else "TEXT".

(** The body of the loop of [createTable] over the fields. *)
Definition addColumn (createSQL : string) (field : Field.t) : string :=
  if negb (Field.IsMany field) && negb (Field.IsAction field) then
    let columnType := mapTypeToPostgres (Field.Type_ field) in
    createSQL +:+ (ToLower (Field.Name field) +:+ " " +:+ columnType +:+ ",")
  else createSQL.

(** The statement that [createTable] builds. *)
Definition createTableSQL (entity : Entity.t) : string :=
  let tableName := ToLower (Entity.Name entity) in
  let createSQL := "CREATE TABLE IF NOT EXISTS " +:+ tableName +:+ " (" in
  let createSQL := createSQL +:+ "id SERIAL PRIMARY KEY," in
  let createSQL := fold_left addColumn (Entity.Fields entity) createSQL in
  TrimSuffix createSQL "," +:+ ")".

Definition createTable (entity : Entity.t) (s : session) : session * option error :=
  exec (createTableSQL entity) s.

Definition LFs : string := String LF EmptyString.
Definition TABs4 : string := String TAB (String TAB (String TAB (String TAB EmptyString))).
Definition TABs5 : string := String TAB TABs4.

(** The statement that [createRelationships] builds for a field. *)
Definition junctionTableSQL (entity : Entity.t) (field : Field.t) : string :=
  let tableName := ToLower (Entity.Name entity) +:+ "_" +:+ ToLower (Field.Name field) in
  LFs +:+ TABs4 +:+ "CREATE TABLE IF NOT EXISTS " +:+ tableName +:+ " (" +:+
  LFs +:+ TABs5 +:+ ToLower (Entity.Name entity) +:+ "_id INTEGER REFERENCES "
    +:+ ToLower (Entity.Name entity) +:+ "(id)," +:+
  LFs +:+ TABs5 +:+ ToLower (Field.Through field) +:+ "_id INTEGER REFERENCES "
    +:+ ToLower (Field.Through field) +:+ "(id)," +:+
  LFs +:+ TABs5 +:+ "PRIMARY KEY (" +:+ ToLower (Entity.Name entity) +:+ "_id, "
    +:+ ToLower (Field.Through field) +:+ "_id)" +:+
  LFs +:+ TABs4 +:+ ")".

Definition createRelationships (entity : Entity.t) (s : session) : session * option error :=
  forEach (fun field s =>
             if Field.IsMany field
             then exec (junctionTableSQL entity field) s
             else (s, None))
          (Entity.Fields entity) s.

Definition GenerateSchema (stateql : StateQL.t) (s : session) : session * option error :=
  let '(s1, err) := forEach createTable (StateQL.Entities stateql) s in
  match err with
  | Some e => (s1, Some e)
  | None => forEach createRelationships (StateQL.Entities stateql) s1
  end.

End SchemaGenerator.
End db.

(** ** Package [main]: the handler of [POST /schema]

    [bound] is what [c.BindJSON(&schemaContent)] gives: the [content] field
    of the request body, or [None] when the binding returns an error.  A
    response is the status and the one key and text of the [gin.H] passed to
    [c.JSON]. *)

Module main.
Section Handler.

Variable unicodeLower : string -> string.
Variable DB : Type.
Variable Exec : string -> DB -> DB * option error.

Record response : Type := JSON {
  status : Z;
  key : string;
  text : string
}.

Definition postSchema (bound : option string) (s : db.session DB)
    : outcome (db.session DB * response) :=
  match bound with
  | None => mret (s, JSON 400 "error" "Invalid request body")
  | Some content =>
      '(stateql, err) ← parser.ParseStateQL content;
      match err with
      | Some e => mret (s, JSON 400 "error" ("Failed to parse StateQL: " +:+ e))
      | None =>
          let '(s', err) := db.GenerateSchema unicodeLower DB Exec stateql s in
          match err with
          | Some e => mret (s', JSON 500 "error" ("Failed to generate schema: " +:+ e))
          | None => mret (s', JSON 200 "message" "Schema generated successfully")
          end
      end
  end.

End Handler.
End main.

(** ** The specification's vocabulary

    The definitions of this module follow the words of the specification;
    the theorems below compare them with the code above. *)

Module Spec.

(** The four field shapes.  The code stores no tag: the kind is read off
    the flags that [parseField] sets, in its priority order (a computed
    field is told from a scalar one by its function name). *)
Inductive Kind : Type := Scalar | ManyRelation | Action | Computed.

Definition kindOf (f : Field.t) : Kind :=
  if Field.IsAction f then Action
  else if Field.IsMany f then ManyRelation
  else if String.eqb (Field.FunctionName f) EmptyString then Scalar
  else Computed.

Definition materialized (f : Field.t) : bool :=
  match kindOf f with
  | Scalar | Computed => true
  | ManyRelation | Action => false
  end.

(** The source text whose lines are [ls]: they are joined by line feeds. *)
Definition unlines (ls : list string) : string := Join ls (String LF EmptyString).

(** A line of the source text, as the Entity Block Builder classifies it. *)
Definition isBlank (text : string) : bool := String.eqb (TrimSpace text) EmptyString.
Definition isFieldLine (text : string) : bool := HasPrefix (TrimSpace text) "-".
Definition isHeader (text : string) : bool := negb (isBlank text) && negb (isFieldLine text).

(** The entity name of a header line: a trailing [:] is stripped. *)
Definition headerName (text : string) : string := TrimSuffix (TrimSpace text) ":".

Definition headerNames (texts : list string) : list string :=
  map headerName (List.filter isHeader texts).

(** The byte [c] occurs in [s]. *)
Fixpoint hasByte (c : ascii) (s : string) : bool :=
  match s with
  | EmptyString => false
  | String d s' => Ascii.eqb d c || hasByte c s'
  end.

(** A line of a well-formed source text: a line proper (it holds no line
    feed), short enough for the scanner, and, when it is a field line, one
    on which the Field Grammar Parser returns. *)
Definition fieldParses (text : string) : bool :=
  match parser.parseField (TrimSpace text) with
  | Returned _ => true
  | Panicked => false
  end.

Definition wellFormedLine (text : string) : bool :=
  negb (hasByte LF text) && bufio.fits text
  && (negb (isFieldLine text) || fieldParses text).

(** The loop's pointer refers to the entity appended last, if any. *)
Definition pointsToLast (st : parser.scanState) : Prop :=
  parser.currentEntity st =
  match length (StateQL.Entities (parser.stateql st)) with
  | O => None
  | S n => Some n
  end.

(** No white-space rune starts anywhere in [t]. *)
Definition spaceFree (t : string) : Prop :=
  forall k, spaceWidth (dropBytes k t) = 0%nat.

(** A positional token of an action's argument text: it neither begins
    with [:] nor contains [=]. *)
Definition isPositional (part : string) : bool :=
  negb (HasPrefix part ":") && negb (Contains part "=").

(** A token that both starts and ends with a double quote. *)
Definition isQuoted (part : string) : bool :=
  HasPrefix part (String DQUOTE EmptyString) && HasSuffix part (String DQUOTE EmptyString).

(** Column chunks, each followed by a comma: what the loop of [createTable]
    appends. *)
Fixpoint commaTerminated (cols : list string) : string :=
  match cols with
  | [] => EmptyString
  | c :: cols' => c +:+ "," +:+ commaTerminated cols'
  end.

(** A named argument [key=value]: the token is no required parameter and
    splits at [=] into exactly two parts. *)
Definition namedPair (part : string) : option (string * string) :=
  if negb (HasPrefix part ":") && Contains part "=" then
    let kv := Split part "=" in
    if (length kv =? 2)%nat
    then Some (TrimSpace (nth 0 kv EmptyString), TrimSpace (nth 1 kv EmptyString))
    else None
  else None.

Definition addNamed (result : gmap string string) (part : string) : gmap string string :=
  match namedPair part with
  | Some (k, v) => <[k:=v]> result
  | None => result
  end.

(** The named-argument map of a token list. *)
Definition namedArgs (parts : list string) : gmap string string :=
  fold_left addNamed parts ∅.

(** The token at index [i] of the token list, when it is positional. *)
Definition positionalAt (parts : list string) (i : nat) : option string :=
  match parts !! i with
  | Some part => if isPositional part then Some part else None
  | None => None
  end.

Definition withSlot (key : string) (slot : option string)
    (m : gmap string string) : gmap string string :=
  match slot with
  | Some v => <[key:=v]> m
  | None => m
  end.

(** What the loop writes for the token at a slot index: a positional token
    goes under the key of the slot, any other token is treated as at every
    other index. *)
Definition writeSlot (key : string) (tok : option string)
    (m : gmap string string) : gmap string string :=
  match tok with
  | Some part => if isPositional part then <[key:=part]> m else addNamed m part
  | None => m
  end.

(** The first of two optional bindings that is present. *)
Definition orElse (a b : option string) : option string :=
  match a with
  | Some v => Some v
  | None => b
  end.

(** No named argument uses a reserved key. *)
Definition reservedFree (parts : list string) : Prop :=
  Forall (fun part => forall k v, namedPair part = Some (k, v) -> k <> "arg1" /\ k <> "arg2")
         parts.

(** [n] double quotes. *)
Fixpoint quotes (n : nat) : string :=
  match n with
  | O => EmptyString
  | S k => String DQUOTE (quotes k)
  end.

Definition quote : string := String DQUOTE EmptyString.

(** What [parseFunctionArgs] appends for a token. *)
Definition unquote (part : string) : string :=
  if isQuoted part then Trim part quote else part.

Section Compiler.
Variable unicodeLower : string -> string.

(** One column: the lowercased field name and the column type of the
    Type Mapper. *)
Definition columnDef (f : Field.t) : string :=
  db.ToLower unicodeLower (Field.Name f) +:+ " " +:+
  db.mapTypeToPostgres unicodeLower (Field.Type_ f).

(** The columns of an entity's table: the synthetic key, then one column
    per Scalar or Computed field, in declaration order. *)
Definition tableColumns (e : Entity.t) : list string :=
  "id SERIAL PRIMARY KEY" :: map columnDef (List.filter materialized (Entity.Fields e)).

Definition tableStatement (e : Entity.t) : string :=
  "CREATE TABLE IF NOT EXISTS " +:+ db.ToLower unicodeLower (Entity.Name e) +:+ " (" +:+
  Join (tableColumns e) "," +:+ ")".

(** The junction-table statements of an entity: one per ManyRelation
    field, in declaration order. *)
Definition junctionStatements (e : Entity.t) : list string :=
  map (db.junctionTableSQL unicodeLower e)
    (List.filter Field.IsMany (Entity.Fields e)).

(** The ordered sequence of DDL statements of a model: the table pass,
    then the relationship pass. *)
Definition statements (m : StateQL.t) : list string :=
  map tableStatement (StateQL.Entities m) ++
  flat_map junctionStatements (StateQL.Entities m).
End Compiler.

Section Executor.
Context {DB : Type}.
Variable Exec : string -> DB -> DB * option error.

(** The store after the statements [stmts] were executed in order. *)
Definition storeAfter (stmts : list string) (d : DB) : DB :=
  fold_left (fun d sql => fst (Exec sql d)) stmts d.
End Executor.

End Spec.

(** ** Sample inputs and executors *)

Module Sample.

(** The end-to-end example of the specification. *)
Definition userSource : string :=
  Spec.unlines ["User:"; "- id is text"; "- friends is many User thru befriendedBy"].

Definition idField : Field.t := Field.set_Type "text" (Field.set_Name "id" Field.zero).

Definition friendsField : Field.t :=
  Field.set_Through "befriendedBy" (Field.set_IsMany true (Field.set_Name "friends" Field.zero)).

Definition userModel : StateQL.t :=
  StateQL.mk [Entity.mk "User" [idField; friendsField]].

Definition userTableSQL : string :=
  "CREATE TABLE IF NOT EXISTS user (id SERIAL PRIMARY KEY,id TEXT)".

Definition userFriendsSQL : string :=
  db.LFs +:+ db.TABs4 +:+ "CREATE TABLE IF NOT EXISTS user_friends (" +:+
  db.LFs +:+ db.TABs5 +:+ "user_id INTEGER REFERENCES user(id)," +:+
  db.LFs +:+ db.TABs5 +:+ "befriendedby_id INTEGER REFERENCES befriendedby(id)," +:+
  db.LFs +:+ db.TABs5 +:+ "PRIMARY KEY (user_id, befriendedby_id)" +:+
  db.LFs +:+ db.TABs4 +:+ ")".

(** A case mapping for the strings that are not ASCII: they are left as
    they are. *)
Definition keepCase (s : string) : string := s.

(** A store that records the statements it executed and accepts all of
    them. *)
Definition acceptAll (sql : string) (d : list string) : list string * option error :=
  (d ++ [sql], None).

(** A store that rejects the statement [bad] and executes every other. *)
Definition rejecting (bad : string) (sql : string) (d : list string)
    : list string * option error :=
  if String.eqb sql bad then (d, Some "rejected") else (d ++ [sql], None).

End Sample.

(** ** Further vocabulary *)

Module Notions.

(** A line that the scanner hands over whole: it holds no line feed and is
    shorter than [bufio.MaxScanTokenSize]. *)
Definition scannable (l : string) : bool :=
  negb (Spec.hasByte LF l) && bufio.fits l.

(** A field that is an action and no many-relationship. *)
Definition isPlainAction (f : Field.t) : bool :=
  Field.IsAction f && negb (Field.IsMany f).

(** The model without its plain action fields. *)
Definition withoutActions (m : StateQL.t) : StateQL.t :=
  StateQL.mk
    (map (fun e => Entity.mk (Entity.Name e)
                     (List.filter (fun f => negb (isPlainAction f)) (Entity.Fields e)))
         (StateQL.Entities m)).


(** [n] bytes [c]. *)
Fixpoint filler (n : nat) (c : ascii) : string :=
  match n with
  | O => EmptyString
  | S k => String c (filler k c)
  end.

End Notions.

(** * Properties *)

(** Unfolds the sequencing of outcomes. *)
Ltac outcome_simpl :=
  simpl; unfold mret, mbind, outcome_ret, outcome_bind in *; simpl in *.

(** ** Strings *)

Section StringFacts.

Lemma sapp_cons c s t : String c s +:+ t = String c (s +:+ t).
Proof. reflexivity. Qed.

Lemma sapp_nil_l t : EmptyString +:+ t = t.
Proof. reflexivity. Qed.

Lemma sapp_nil_r s : s +:+ EmptyString = s.
Proof. induction s as [|c s IH]; [reflexivity|]. by rewrite sapp_cons, IH. Qed.

Lemma sapp_assoc s t u : (s +:+ t) +:+ u = s +:+ (t +:+ u).
Proof. induction s as [|c s IH]; [reflexivity|]. by rewrite !sapp_cons, IH. Qed.

Lemma slength_app s t :
  String.length (s +:+ t) = (String.length s + String.length t)%nat.
Proof. induction s as [|c s IH]; [reflexivity|]. rewrite sapp_cons. simpl. by rewrite IH. Qed.

Lemma drop_app s t : GoStrings.dropBytes (String.length s) (s +:+ t) = t.
Proof. induction s as [|c s IH]; [by destruct t|]. by rewrite sapp_cons. Qed.

Lemma take_app s t : GoStrings.takeBytes (String.length s) (s +:+ t) = s.
Proof.
  induction s as [|c s IH]; [by destruct t|].
  rewrite sapp_cons. simpl. by rewrite IH.
Qed.

Lemma HasSuffix_app s suffix : HasSuffix (s +:+ suffix) suffix = true.
Proof.
  unfold HasSuffix. rewrite slength_app.
  replace (String.length s + String.length suffix - String.length suffix)%nat
    with (String.length s) by lia.
  rewrite drop_app, String.eqb_refl, andb_true_r.
  apply Nat.leb_le. lia.
Qed.

Lemma TrimSuffix_app s suffix : TrimSuffix (s +:+ suffix) suffix = s.
Proof.
  unfold TrimSuffix. rewrite HasSuffix_app, slength_app.
  replace (String.length s + String.length suffix - String.length suffix)%nat
    with (String.length s) by lia.
  apply take_app.
Qed.

End StringFacts.

(** ** Lines *)

Section LineFacts.

Lemma take_drop_bytes n s : takeBytes n s +:+ dropBytes n s = s.
Proof.
  revert s. induction n as [|n IH]; intros [|c s]; simpl; try reflexivity.
  by rewrite sapp_cons, IH.
Qed.

Lemma HasSuffix_split s suffix :
  HasSuffix s suffix = true -> exists s0, s = s0 +:+ suffix.
Proof.
  unfold HasSuffix. intros [_ Heq%String.eqb_eq]%andb_prop.
  exists (takeBytes (String.length s - String.length suffix) s).
  by rewrite <- Heq at 2; rewrite take_drop_bytes.
Qed.

Lemma rev_app_app s t acc :
  String.rev_app (s +:+ t) acc = String.rev_app t (String.rev_app s acc).
Proof.
  revert acc. induction s as [|c s IH]; intros acc; [reflexivity|].
  rewrite sapp_cons. simpl. apply IH.
Qed.

Lemma rev_snoc s c : String.rev (s +:+ String c EmptyString) = String c (String.rev s).
Proof. unfold String.rev. by rewrite rev_app_app. Qed.

Lemma isSpace2_CR c : isSpace2 c CR = false.
Proof. unfold isSpace2. simpl. apply andb_false_r. Qed.

Lemma isSpace3_CR c1 c2 : isSpace3 c1 c2 CR = false.
Proof.
  unfold isSpace3. change (N_of_ascii CR) with 13%N. simpl.
  by rewrite !andb_false_r.
Qed.

(** White space at the left of a line is found whether or not a carriage
    return ends the line. *)
Lemma trimLeftSpace_snoc_CR n s :
  (String.length s <= n)%nat ->
  trimLeftSpace (s +:+ String CR EmptyString) =
  match trimLeftSpace s with
  | EmptyString => EmptyString
  | t => t +:+ String CR EmptyString
  end.
Proof.
  revert s. induction n as [|n IH]; intros [|c1 s1] Hlen; simpl in Hlen;
    try reflexivity; try lia.
  rewrite sapp_cons. simpl.
  destruct (asciiSpace c1) eqn:H1; [apply IH; lia|].
  destruct s1 as [|c2 s2].
  { rewrite sapp_nil_l, isSpace2_CR. reflexivity. }
  rewrite sapp_cons.
  destruct (isSpace2 c1 c2) eqn:H2; [apply IH; simpl in Hlen; lia|].
  destruct s2 as [|c3 s3].
  { rewrite sapp_nil_l, isSpace3_CR. reflexivity. }
  rewrite sapp_cons.
  destruct (isSpace3 c1 c2 c3) eqn:H3; [apply IH; simpl in Hlen; lia|].
  reflexivity.
Qed.

Lemma TrimSpace_snoc_CR s : TrimSpace (s +:+ String CR EmptyString) = TrimSpace s.
Proof.
  unfold TrimSpace. rewrite (trimLeftSpace_snoc_CR (String.length s)) by lia.
  destruct (trimLeftSpace s) as [|c t]; [reflexivity|].
  unfold trimRightSpace. rewrite rev_snoc. reflexivity.
Qed.

(** [TrimSpace] makes [dropCR] invisible to the parser. *)
Lemma TrimSpace_dropCR l : TrimSpace (bufio.dropCR l) = TrimSpace l.
Proof.
  unfold bufio.dropCR, TrimSuffix.
  destruct (HasSuffix l (String CR EmptyString)) eqn:Hs; [|reflexivity].
  destruct (HasSuffix_split _ _ Hs) as [s0 ->].
  rewrite slength_app. simpl.
  replace (String.length s0 + 1 - 1)%nat with (String.length s0) by lia.
  by rewrite take_app, TrimSpace_snoc_CR.
Qed.

Lemma rawLines_line l rest :
  Spec.hasByte LF l = false ->
  bufio.rawLines (l +:+ String LF rest) = l :: bufio.rawLines rest.
Proof.
  induction l as [|c l IH]; intros Hl.
  - reflexivity.
  - rewrite sapp_cons. simpl in *.
    apply orb_false_elim in Hl as [Hc Hl].
    rewrite Hc, (IH Hl). reflexivity.
Qed.

Lemma rawLines_last l :
  Spec.hasByte LF l = false -> l <> EmptyString -> bufio.rawLines l = [l].
Proof.
  induction l as [|c l IH]; intros Hl Hne; [done|].
  simpl in *. apply orb_false_elim in Hl as [Hc Hl]. rewrite Hc.
  destruct l as [|c' l']; [reflexivity|].
  rewrite (IH Hl); [reflexivity | discriminate].
Qed.

End LineFacts.

(** ** Tokens *)

Section TokenFacts.

Lemma rev_app_acc s acc : String.rev_app s acc = String.rev s +:+ acc.
Proof.
  unfold String.rev. revert acc. induction s as [|c s IH]; intros acc; [reflexivity|].
  simpl. rewrite (IH (String c acc)), (IH (String c EmptyString)).
  by rewrite sapp_assoc.
Qed.

Lemma rev_cons c s : String.rev (String c s) = String.rev s +:+ String c EmptyString.
Proof. unfold String.rev at 1. simpl. apply rev_app_acc. Qed.

Lemma rev_app_distr s t : String.rev (s +:+ t) = String.rev t +:+ String.rev s.
Proof. unfold String.rev at 1. by rewrite rev_app_app, rev_app_acc. Qed.

Lemma rev_involutive s : String.rev (String.rev s) = s.
Proof.
  induction s as [|c s IH]; [reflexivity|].
  by rewrite rev_cons, rev_snoc, IH.
Qed.

Lemma dropBytes_empty k : dropBytes k EmptyString = EmptyString.
Proof. by destruct k. Qed.

Lemma spaceFree_empty : Spec.spaceFree EmptyString.
Proof. intros k. by rewrite dropBytes_empty. Qed.

(** A string that starts with no white-space rune has no prefix that starts
    with one. *)
Lemma spaceWidth_prefix u r : spaceWidth (u +:+ r) = 0%nat -> spaceWidth u = 0%nat.
Proof.
  destruct u as [|c1 [|c2 [|c3 u]]]; rewrite ?sapp_cons, ?sapp_nil_l; simpl; intros H;
    try reflexivity;
    destruct (asciiSpace c1); try discriminate; try reflexivity;
    destruct (isSpace2 c1 c2); try discriminate; try reflexivity;
    destruct (isSpace3 c1 c2 c3); try discriminate; reflexivity.
Qed.

Lemma trimLeftSpace_id t : spaceWidth t = 0%nat -> trimLeftSpace t = t.
Proof.
  destruct t as [|c1 [|c2 [|c3 t]]]; simpl; try reflexivity;
    destruct (asciiSpace c1); try discriminate; try reflexivity.
  - by destruct (isSpace2 c1 c2).
  - destruct (isSpace2 c1 c2); [discriminate|]. by destruct (isSpace3 c1 c2 c3).
Qed.

Lemma trimLeftSpaceRev_id r : spaceWidthRev r = 0%nat -> trimLeftSpaceRev r = r.
Proof.
  destruct r as [|c1 [|c2 [|c3 r]]]; simpl; try reflexivity;
    destruct (asciiSpace c1); try discriminate; try reflexivity.
  - by destruct (isSpace2 c2 c1).
  - destruct (isSpace2 c2 c1); [discriminate|]. by destruct (isSpace3 c3 c2 c1).
Qed.

(** A string that ends with a white-space rune has a position where one
    starts. *)
Lemma spaceWidthRev_spaceFree t : Spec.spaceFree t -> spaceWidthRev (String.rev t) = 0%nat.
Proof.
  intros Hfree.
  destruct (spaceWidthRev (String.rev t)) as [|w] eqn:Hw; [reflexivity|exfalso].
  rewrite <- (rev_involutive t) in Hfree.
  destruct (String.rev t) as [|c1 r1]; [discriminate|].
  simpl in Hw. rewrite rev_cons in Hfree.
  destruct (asciiSpace c1) eqn:H1.
  { specialize (Hfree (String.length (String.rev r1))). rewrite drop_app in Hfree.
    simpl in Hfree. by rewrite H1 in Hfree. }
  destruct r1 as [|c2 r2]; [discriminate|].
  rewrite rev_cons, sapp_assoc in Hfree.
  destruct (isSpace2 c2 c1) eqn:H2.
  { specialize (Hfree (String.length (String.rev r2))). rewrite drop_app in Hfree.
    simpl in Hfree. rewrite H2 in Hfree. by destruct (asciiSpace c2). }
  destruct r2 as [|c3 r3]; [discriminate|].
  rewrite rev_cons, sapp_assoc in Hfree.
  destruct (isSpace3 c3 c2 c1) eqn:H3; [|discriminate].
  specialize (Hfree (String.length (String.rev r3))). rewrite drop_app in Hfree.
  simpl in Hfree. rewrite H3 in Hfree.
  by destruct (asciiSpace c3), (isSpace2 c3 c2).
Qed.

Lemma TrimSpace_spaceFree t : Spec.spaceFree t -> TrimSpace t = t.
Proof.
  intros Hfree. unfold TrimSpace, trimRightSpace.
  rewrite (trimLeftSpace_id t) by exact (Hfree 0%nat).
  rewrite trimLeftSpaceRev_id by by apply spaceWidthRev_spaceFree.
  apply rev_involutive.
Qed.

Lemma Forall_flush (P : string -> Prop) cur rest :
  P cur -> Forall P rest -> Forall P (flush cur ++ rest).
Proof. intros Hcur Hrest. destruct cur; simpl; [done | by constructor]. Qed.

Lemma fields_go_spaceFree s skip :
  Spec.spaceFree (fst (fields_go skip s))
  /\ Forall Spec.spaceFree (snd (fields_go skip s))
  /\ (skip = 0%nat -> exists r, s = fst (fields_go 0 s) +:+ r).
Proof.
  revert skip. induction s as [|c s IH]; intros skip.
  - cbn [fields_go fst snd]. split; [apply spaceFree_empty|]. split; [constructor|].
    by exists EmptyString.
  - cbn [fields_go]. destruct skip as [|k].
    + destruct (spaceWidth (String c s)) as [|w] eqn:Hw.
      * destruct (IH 0%nat) as (Hcur & Hrest & Hpre).
        destruct (Hpre eq_refl) as [r Hr].
        destruct (fields_go 0 s) as [cur rest]. cbn [fst snd] in *.
        split; [|split; [done|]].
        -- intros [|k]; cbn [dropBytes]; [|apply Hcur].
           apply (spaceWidth_prefix _ r). by rewrite sapp_cons, <- Hr.
        -- intros _. exists r. by rewrite sapp_cons, <- Hr.
      * destruct (IH w) as (Hcur & Hrest & _).
        destruct (fields_go w s) as [cur rest]. cbn [fst snd] in *.
        split; [apply spaceFree_empty|]. split; [by apply Forall_flush|].
        intros _. by exists (String c s).
    + destruct (IH k) as (Hcur & Hrest & _).
      destruct (fields_go k s) as [cur rest]. cbn [fst snd] in *.
      split; [apply spaceFree_empty|]. split; [by apply Forall_flush|]. done.
Qed.

(** No white space is left in the tokens of [strings.Fields]. *)
Lemma Fields_spaceFree s : Forall Spec.spaceFree (GoStrings.Fields s).
Proof.
  unfold GoStrings.Fields.
  destruct (fields_go_spaceFree s 0) as (Hcur & Hrest & _).
  destruct (fields_go 0 s) as [cur rest]. by apply Forall_flush.
Qed.

(** So the [strings.TrimSpace] applied to each token changes nothing. *)
Lemma TrimSpace_Fields s : map TrimSpace (GoStrings.Fields s) = GoStrings.Fields s.
Proof.
  induction (Fields_spaceFree s) as [|t ts Ht _ IH]; simpl; [reflexivity|].
  by rewrite IH, TrimSpace_spaceFree.
Qed.

End TokenFacts.

(** ** Action arguments *)

Section ActionArgFacts.

Lemma addNamed_positional m part : Spec.isPositional part = true -> Spec.addNamed m part = m.
Proof.
  unfold Spec.isPositional, Spec.addNamed, Spec.namedPair.
  intros [-> H]%andb_prop. apply negb_true_iff in H. by rewrite H.
Qed.

Lemma actionArgStep_fst i raw m r :
  Spec.spaceFree raw ->
  fst (parser.actionArgStep i raw (m, r)) =
  if Spec.isPositional raw
  then match i with
       | 0%nat => <["arg1" := raw]> m
       | 1%nat => <["arg2" := raw]> m
       | _ => m
       end
  else Spec.addNamed m raw.
Proof.
  intros Hraw. unfold parser.actionArgStep, Spec.isPositional, Spec.addNamed, Spec.namedPair.
  rewrite (TrimSpace_spaceFree _ Hraw).
  destruct (HasPrefix raw ":"); simpl; [reflexivity|].
  destruct (Contains raw "="); simpl.
  - by destruct (length (Split raw "=") =? 2)%nat.
  - by destruct i as [|[|i]].
Qed.

Lemma actionArgLoop_from_2 parts i m r :
  (2 <= i)%nat -> Forall Spec.spaceFree parts ->
  fst (parser.actionArgLoop i parts (m, r)) = fold_left Spec.addNamed parts m.
Proof.
  intros Hi Hparts. revert i m r Hi.
  induction Hparts as [|raw parts Hraw _ IH]; intros i m r Hi;
    cbn [parser.actionArgLoop fold_left]; [reflexivity|].
  pose proof (actionArgStep_fst i raw m r Hraw) as Hstep.
  destruct (parser.actionArgStep i raw (m, r)) as [m' r']. simpl in Hstep.
  rewrite IH by lia. f_equal. rewrite Hstep.
  destruct (Spec.isPositional raw) eqn:Hpos; [|reflexivity].
  rewrite (addNamed_positional _ _ Hpos). by destruct i as [|[|i]]; [lia..|].
Qed.

Lemma addNamed_insert part k v m :
  (forall k' v', Spec.namedPair part = Some (k', v') -> k' <> k) ->
  Spec.addNamed (<[k:=v]> m) part = <[k:=v]> (Spec.addNamed m part).
Proof.
  unfold Spec.addNamed. intros Hk.
  destruct (Spec.namedPair part) as [[k' v']|]; [|reflexivity].
  apply insert_insert_ne. by apply (Hk k' v').
Qed.

Lemma fold_addNamed_insert parts k v m :
  Forall (fun part => forall k' v', Spec.namedPair part = Some (k', v') -> k' <> k) parts ->
  fold_left Spec.addNamed parts (<[k:=v]> m) = <[k:=v]> (fold_left Spec.addNamed parts m).
Proof.
  intros Hparts. revert m. induction Hparts as [|part parts Hpart _ IH]; intros m; simpl.
  - reflexivity.
  - by rewrite addNamed_insert, IH.
Qed.

Lemma fold_addNamed_lookup parts k m :
  Forall (fun part => forall k' v', Spec.namedPair part = Some (k', v') -> k' <> k) parts ->
  fold_left Spec.addNamed parts m !! k = m !! k.
Proof.
  intros Hparts. revert m. induction Hparts as [|part parts Hpart _ IH]; intros m; simpl.
  - reflexivity.
  - rewrite IH. unfold Spec.addNamed.
    destruct (Spec.namedPair part) as [[k' v']|] eqn:Hp; [|reflexivity].
    apply lookup_insert_ne. by apply (Hpart k' v').
Qed.

Lemma reservedFree_arg1 parts :
  Spec.reservedFree parts ->
  Forall (fun part => forall k' v', Spec.namedPair part = Some (k', v') -> k' <> "arg1") parts.
Proof.
  intros Hres. eapply Forall_impl; [exact Hres|].
  intros part H k' v' Hp. by destruct (H k' v' Hp).
Qed.

Lemma reservedFree_arg2 parts :
  Spec.reservedFree parts ->
  Forall (fun part => forall k' v', Spec.namedPair part = Some (k', v') -> k' <> "arg2") parts.
Proof.
  intros Hres. eapply Forall_impl; [exact Hres|].
  intros part H k' v' Hp. by destruct (H k' v' Hp).
Qed.

(** The map built by the loop over a whole token list. *)
Lemma actionArgLoop_map parts r :
  Forall Spec.spaceFree parts -> Spec.reservedFree parts ->
  fst (parser.actionArgLoop 0 parts (∅, r)) =
  Spec.withSlot "arg1" (Spec.positionalAt parts 0)
    (Spec.withSlot "arg2" (Spec.positionalAt parts 1) (Spec.namedArgs parts)).
Proof.
  intros Hfree Hres. unfold Spec.namedArgs, Spec.positionalAt.
  destruct Hfree as [|p0 parts Hp0 Hfree]; [reflexivity|].
  apply Forall_cons in Hres as [Hr0 Hres].
  cbn [parser.actionArgLoop fold_left lookup list_lookup].
  pose proof (actionArgStep_fst 0 p0 ∅ r Hp0) as H0.
  destruct (parser.actionArgStep 0 p0 (∅, r)) as [m0 r0]. simpl in H0. subst m0.
  destruct Hfree as [|p1 parts Hp1 Hfree].
  { simpl. destruct (Spec.isPositional p0) eqn:Hpos0; simpl; [|reflexivity].
    by rewrite (addNamed_positional _ _ Hpos0). }
  apply Forall_cons in Hres as [Hr1 Hres].
  cbn [parser.actionArgLoop fold_left lookup list_lookup].
  match goal with |- context [parser.actionArgStep 1 p1 (?m, r0)] =>
    pose proof (actionArgStep_fst 1 p1 m r0 Hp1) as H1;
    destruct (parser.actionArgStep 1 p1 (m, r0)) as [m1 r1]
  end.
  simpl in H1. subst m1. rewrite actionArgLoop_from_2 by (lia || done).
  pose proof (reservedFree_arg1 _ Hres) as Ha1.
  pose proof (reservedFree_arg2 _ Hres) as Ha2.
  destruct (Spec.isPositional p0) eqn:Hpos0, (Spec.isPositional p1) eqn:Hpos1; simpl;
    rewrite ?(addNamed_positional _ _ Hpos0), ?(addNamed_positional _ _ Hpos1).
  - rewrite !fold_addNamed_insert by done. by apply insert_insert_ne.
  - rewrite addNamed_insert by (intros k' v' Hp; by destruct (Hr1 k' v' Hp)).
    by rewrite fold_addNamed_insert.
  - by rewrite fold_addNamed_insert.
  - reflexivity.
Qed.

Lemma actionArgStep_from_2 i j raw acc :
  (2 <= i)%nat -> (2 <= j)%nat ->
  parser.actionArgStep i raw acc = parser.actionArgStep j raw acc.
Proof.
  intros Hi Hj. destruct i as [|[|i]], j as [|[|j]]; try lia. reflexivity.
Qed.

Lemma actionArgLoop_index i j parts acc :
  (2 <= i)%nat -> (2 <= j)%nat ->
  parser.actionArgLoop i parts acc = parser.actionArgLoop j parts acc.
Proof.
  revert i j acc. induction parts as [|raw parts IH]; intros i j acc Hi Hj;
    cbn [parser.actionArgLoop].
  - reflexivity.
  - rewrite (actionArgStep_from_2 i j) by done. apply IH; lia.
Qed.

Lemma actionArgLoop_app i l1 l2 acc :
  parser.actionArgLoop i (l1 ++ l2) acc =
  parser.actionArgLoop (i + length l1) l2 (parser.actionArgLoop i l1 acc).
Proof.
  revert i acc. induction l1 as [|raw l1 IH]; intros i acc;
    cbn [parser.actionArgLoop app length].
  - by rewrite Nat.add_0_r.
  - rewrite IH. f_equal. lia.
Qed.

Lemma actionArgStep_dropped i raw acc :
  (2 <= i)%nat -> Spec.isPositional (TrimSpace raw) = true ->
  parser.actionArgStep i raw acc = acc.
Proof.
  unfold parser.actionArgStep, Spec.isPositional. destruct acc as [m r].
  intros Hi [H1 H2]%andb_prop.
  apply negb_true_iff in H1, H2. rewrite H1, H2.
  by destruct i as [|[|i]]; [lia..|].
Qed.

(** A positional token that is the third token or a later one leaves no
    trace. *)
Lemma actionArgLoop_dropped l1 part l2 acc :
  (2 <= length l1)%nat -> Spec.isPositional (TrimSpace part) = true ->
  parser.actionArgLoop 0 (l1 ++ part :: l2) acc = parser.actionArgLoop 0 (l1 ++ l2) acc.
Proof.
  intros Hlen Hpos. rewrite !actionArgLoop_app. cbn [parser.actionArgLoop].
  rewrite actionArgStep_dropped by (lia || done).
  apply actionArgLoop_index; lia.
Qed.

Lemma namedPair_positional part :
  Spec.isPositional part = true -> Spec.namedPair part = None.
Proof.
  unfold Spec.isPositional, Spec.namedPair.
  intros [-> H]%andb_prop. apply negb_true_iff in H. by rewrite H.
Qed.

Lemma fold_addNamed_union parts a m :
  fold_left Spec.addNamed parts (a ∪ m) = fold_left Spec.addNamed parts a ∪ m.
Proof.
  revert a. induction parts as [|part parts IH]; intros a; simpl; [reflexivity|].
  rewrite <- IH. f_equal. unfold Spec.addNamed.
  destruct (Spec.namedPair part) as [[k v]|]; [|reflexivity].
  apply insert_union_l.
Qed.

(** A key of the folded map is bound by the last named argument that uses
    it, and by the initial map when there is none. *)
Lemma fold_addNamed_orElse parts m k :
  fold_left Spec.addNamed parts m !! k = Spec.orElse (Spec.namedArgs parts !! k) (m !! k).
Proof.
  unfold Spec.namedArgs.
  rewrite <- (left_id_L ∅ (∪) m) at 1. rewrite fold_addNamed_union, lookup_union.
  by destruct (fold_left Spec.addNamed parts ∅ !! k), (m !! k).
Qed.

Lemma namedArgs_take_drop n parts k :
  Spec.namedArgs parts !! k
  = Spec.orElse (Spec.namedArgs (drop n parts) !! k) (Spec.namedArgs (take n parts) !! k).
Proof.
  rewrite <- (take_drop n parts) at 1. unfold Spec.namedArgs at 1.
  rewrite fold_left_app. apply fold_addNamed_orElse.
Qed.

(** The map built by the loop over a whole token list, whatever the keys of
    its named arguments: the first two tokens are written by slot, the
    others as named arguments. *)
Lemma actionArgLoop_slots parts r :
  Forall Spec.spaceFree parts ->
  fst (parser.actionArgLoop 0 parts (∅, r)) =
  fold_left Spec.addNamed (drop 2 parts)
    (Spec.writeSlot "arg2" (parts !! 1%nat) (Spec.writeSlot "arg1" (parts !! 0%nat) ∅)).
Proof.
  intros Hfree.
  destruct Hfree as [|p0 parts Hp0 Hfree]; [reflexivity|].
  cbn [parser.actionArgLoop fold_left lookup list_lookup drop Spec.writeSlot].
  pose proof (actionArgStep_fst 0 p0 ∅ r Hp0) as H0.
  destruct (parser.actionArgStep 0 p0 (∅, r)) as [m0 r0]. simpl in H0. subst m0.
  destruct Hfree as [|p1 parts Hp1 Hfree]; [reflexivity|].
  cbn [parser.actionArgLoop fold_left lookup list_lookup drop Spec.writeSlot].
  match goal with |- context [parser.actionArgStep 1 p1 (?m, r0)] =>
    pose proof (actionArgStep_fst 1 p1 m r0 Hp1) as H1;
    destruct (parser.actionArgStep 1 p1 (m, r0)) as [m1 r1]
  end.
  simpl in H1. subst m1. by rewrite actionArgLoop_from_2 by (lia || done).
Qed.

Ltac slot_cases :=
  unfold Spec.writeSlot, Spec.positionalAt, Spec.namedArgs, Spec.orElse, Spec.addNamed;
  cbn [take lookup list_lookup]; rewrite ?take_0; cbn [fold_left];
  repeat match goal with
  | |- context [Spec.isPositional ?p] =>
      let H := fresh "Hpos" in
      destruct (Spec.isPositional p) eqn:H;
      [rewrite ?(namedPair_positional p H)|]
  end;
  repeat match goal with
  | |- context [Spec.namedPair ?p] =>
      let k := fresh "k" in let v := fresh "v" in
      destruct (Spec.namedPair p) as [[k v]|]
  end;
  rewrite ?lookup_insert, ?lookup_empty;
  repeat case_decide; simplify_eq; reflexivity.

Lemma writeSlot_arg1 parts :
  Spec.writeSlot "arg2" (parts !! 1%nat) (Spec.writeSlot "arg1" (parts !! 0%nat) ∅) !! "arg1"
  = Spec.orElse (Spec.namedArgs (take 2 parts) !! "arg1") (Spec.positionalAt parts 0).
Proof. destruct parts as [|p0 [|p1 parts]]; slot_cases. Qed.

Lemma writeSlot_arg2 parts :
  Spec.writeSlot "arg2" (parts !! 1%nat) (Spec.writeSlot "arg1" (parts !! 0%nat) ∅) !! "arg2"
  = Spec.orElse (Spec.positionalAt parts 1) (Spec.namedArgs (take 2 parts) !! "arg2").
Proof. destruct parts as [|p0 [|p1 parts]]; slot_cases. Qed.

(** C3 (amended): the slots [arg1] and [arg2] go by the index of the token
    among all tokens of the argument text, for every argument text.  The map
    returned by [parseActionArgs] is built by writing the token at index 0
    under [arg1] if it is positional, the token at index 1 under [arg2] if
    it is positional, any token that is a named argument under its own key,
    in the order of the tokens, a later write to a key replacing an earlier
    one.  Hence [arg1] is bound to the value of the last named argument
    with key [arg1], and without one to the token at index 0 if that token is
    positional; [arg2] is bound to the value of the last named argument with
    key [arg2] at index 2 or later, without one to the token at index 1 if
    that token is positional, and else to the value of the last named
    argument with key [arg2] among the first two tokens.  A positional token
    at index 2 or later is dropped: the result is the one of the token list
    without it.  When no named argument uses the keys [arg1] and [arg2], the
    map is the named-argument map with [arg1] bound exactly to a positional
    token at index 0 and [arg2] exactly to a positional token at index 1. *)
Theorem positional_arguments_by_token_index (args : string) :
  fst (parser.parseActionArgs args)
    = fold_left Spec.addNamed (drop 2 (GoStrings.Fields args))
        (Spec.writeSlot "arg2" (GoStrings.Fields args !! 1%nat)
           (Spec.writeSlot "arg1" (GoStrings.Fields args !! 0%nat) ∅))
  /\ fst (parser.parseActionArgs args) !! "arg1"
     = Spec.orElse (Spec.namedArgs (GoStrings.Fields args) !! "arg1")
         (Spec.positionalAt (GoStrings.Fields args) 0)
  /\ fst (parser.parseActionArgs args) !! "arg2"
     = Spec.orElse (Spec.namedArgs (drop 2 (GoStrings.Fields args)) !! "arg2")
         (Spec.orElse (Spec.positionalAt (GoStrings.Fields args) 1)
            (Spec.namedArgs (take 2 (GoStrings.Fields args)) !! "arg2"))
  /\ (forall l1 part l2,
       GoStrings.Fields args = l1 ++ part :: l2 ->
       (2 <= length l1)%nat ->
       Spec.isPositional part = true ->
       parser.parseActionArgs args = parser.actionArgLoop 0 (l1 ++ l2) (∅, []))
  /\ (Spec.reservedFree (GoStrings.Fields args) ->
      fst (parser.parseActionArgs args)
        = Spec.withSlot "arg1" (Spec.positionalAt (GoStrings.Fields args) 0)
            (Spec.withSlot "arg2" (Spec.positionalAt (GoStrings.Fields args) 1)
               (Spec.namedArgs (GoStrings.Fields args)))
      /\ fst (parser.parseActionArgs args) !! "arg1"
         = Spec.positionalAt (GoStrings.Fields args) 0
      /\ fst (parser.parseActionArgs args) !! "arg2"
         = Spec.positionalAt (GoStrings.Fields args) 1).
Proof.
  unfold parser.parseActionArgs.
  pose proof (Fields_spaceFree args) as Hfree.
  pose proof (actionArgLoop_slots _ [] Hfree) as Hslots.
  split; [exact Hslots|]. split; [|split; [|split]].
  - rewrite Hslots, fold_addNamed_orElse, writeSlot_arg1.
    rewrite (namedArgs_take_drop 2 (GoStrings.Fields args) "arg1").
    by destruct (Spec.namedArgs (drop 2 (GoStrings.Fields args)) !! "arg1").
  - by rewrite Hslots, fold_addNamed_orElse, writeSlot_arg2.
  - intros l1 part l2 Hsplit Hlen Hpos. rewrite Hsplit.
    apply actionArgLoop_dropped; [done|].
    rewrite TrimSpace_spaceFree; [done|].
    rewrite Hsplit in Hfree. apply Forall_app in Hfree as [_ Hfree].
    by apply Forall_cons in Hfree as [Hfree _].
  - intros Hres.
    pose proof (actionArgLoop_map _ [] Hfree Hres) as Hmap.
    pose proof (fold_addNamed_lookup _ "arg1" ∅ (reservedFree_arg1 _ Hres)) as Hn1.
    pose proof (fold_addNamed_lookup _ "arg2" ∅ (reservedFree_arg2 _ Hres)) as Hn2.
    fold (Spec.namedArgs (GoStrings.Fields args)) in Hn1, Hn2.
    split; [exact Hmap|]. split.
    + rewrite Hmap.
      destruct (Spec.positionalAt _ 0) as [v0|]; simpl; [apply lookup_insert_eq|].
      destruct (Spec.positionalAt _ 1) as [v1|]; simpl.
      * by rewrite lookup_insert_ne, Hn1.
      * by rewrite Hn1.
    + rewrite Hmap.
      destruct (Spec.positionalAt _ 0) as [v0|]; simpl;
        rewrite ?lookup_insert_ne by done;
        (destruct (Spec.positionalAt _ 1) as [v1|]; simpl;
         [apply lookup_insert_eq | by rewrite Hn2]).
Qed.

(** An argument text whose named arguments use no reserved key: two
    positional tokens, a required parameter, a named argument and a third
    positional token.  The slots hold the first two tokens and the third
    positional token is dropped. *)
Lemma positional_arguments_by_token_index_witness :
  Spec.reservedFree (GoStrings.Fields "attachments target :key mode=fast extra")
  /\ fst (parser.parseActionArgs "attachments target :key mode=fast extra")
     = Spec.withSlot "arg1" (Some "attachments")
         (Spec.withSlot "arg2" (Some "target")
            (Spec.namedArgs (GoStrings.Fields "attachments target :key mode=fast extra")))
  /\ fst (parser.parseActionArgs "attachments target :key mode=fast extra") !! "arg1"
     = Some "attachments"
  /\ fst (parser.parseActionArgs "attachments target :key mode=fast extra") !! "arg2"
     = Some "target".
Proof.
  assert (Hres : Spec.reservedFree (GoStrings.Fields "attachments target :key mode=fast extra")).
  { unfold Spec.reservedFree.
    change (GoStrings.Fields "attachments target :key mode=fast extra")
      with ["attachments"; "target"; ":key"; "mode=fast"; "extra"].
    repeat apply Forall_cons_2; try apply Forall_nil_2;
      intros k v Hp; vm_compute in Hp; try discriminate Hp.
    injection Hp as <- <-. split; discriminate. }
  split; [exact Hres|].
  exact (proj2 (proj2 (proj2 (proj2
    (positional_arguments_by_token_index "attachments target :key mode=fast extra")))) Hres).
Defined.

(** A named argument that uses the key [arg1] replaces the token written by
    slot: in [foo arg1=bar] the key [arg1] is bound to [bar]. *)
Lemma named_argument_replaces_slot :
  GoStrings.Fields "foo arg1=bar" = ["foo"; "arg1=bar"]
  /\ Spec.positionalAt (GoStrings.Fields "foo arg1=bar") 0 = Some "foo"
  /\ fst (parser.parseActionArgs "foo arg1=bar") !! "arg1" = Some "bar".
Proof. repeat split; vm_compute; reflexivity. Qed.

(** C3 (as stated, refuted): in [:key attachments] the first positional
    token is [attachments]; it is the second token, and it is stored under
    [arg2], [arg1] staying unbound. *)
Lemma first_positional_token_not_arg1 :
  GoStrings.Fields ":key attachments" = [":key"; "attachments"]
  /\ Spec.isPositional ":key" = false
  /\ Spec.isPositional "attachments" = true
  /\ fst (parser.parseActionArgs ":key attachments") !! "arg1" = None
  /\ fst (parser.parseActionArgs ":key attachments") !! "arg2" = Some "attachments".
Proof. repeat split; vm_compute; reflexivity. Qed.

End ActionArgFacts.

(** ** Function arguments *)

Section FunctionArgFacts.

Local Abbreviation quote := Spec.quote.

Lemma inCutset_quote c : inCutset c quote = Ascii.eqb c DQUOTE.
Proof. unfold Spec.quote. simpl. apply orb_false_r. Qed.

(** [trimLeftCut] removes the double quotes that a string starts with, all
    of them. *)
Lemma trimLeftCut_quotes s :
  HasPrefix (trimLeftCut s quote) quote = false
  /\ exists a, s = Spec.quotes a +:+ trimLeftCut s quote.
Proof.
  induction s as [|c s [IH1 [a IH2]]].
  - split; [reflexivity|]. by exists 0%nat.
  - cbn [trimLeftCut]. rewrite inCutset_quote.
    destruct (Ascii.eqb c DQUOTE) eqn:Hc.
    + split; [exact IH1|]. exists (S a).
      apply Ascii.eqb_eq in Hc as ->. simpl Spec.quotes. by rewrite sapp_cons, <- IH2.
    + split; [|by exists 0%nat]. unfold Spec.quote. simpl. by rewrite Hc.
Qed.

Lemma quotes_snoc n : Spec.quotes n +:+ quote = Spec.quotes (S n).
Proof. induction n as [|n IH]; [reflexivity|]. simpl. by rewrite sapp_cons, IH. Qed.

Lemma rev_quotes n : String.rev (Spec.quotes n) = Spec.quotes n.
Proof.
  induction n as [|n IH]; [reflexivity|].
  simpl Spec.quotes at 1. by rewrite rev_cons, IH, quotes_snoc.
Qed.

Lemma HasPrefix_empty s : HasPrefix s EmptyString = true.
Proof. by destruct s. Qed.

Lemma HasSuffix_rev s c :
  HasSuffix s (String c EmptyString) = true ->
  HasPrefix (String.rev s) (String c EmptyString) = true.
Proof.
  intros [s0 ->]%HasSuffix_split. rewrite rev_snoc. cbn [HasPrefix].
  by rewrite Ascii.eqb_refl, HasPrefix_empty.
Qed.

Lemma HasPrefix_app_byte s r c :
  s <> EmptyString ->
  HasPrefix (s +:+ r) (String c EmptyString) = HasPrefix s (String c EmptyString).
Proof.
  destruct s as [|d s]; [done|]. intros _. rewrite sapp_cons. cbn [HasPrefix].
  by rewrite !HasPrefix_empty.
Qed.

(** [strings.Trim] with the double quote as cutset removes every double
    quote at both ends of [s]. *)
Lemma Trim_quotes s :
  HasPrefix (Trim s quote) quote = false
  /\ HasSuffix (Trim s quote) quote = false
  /\ exists a b, s = Spec.quotes a +:+ Trim s quote +:+ Spec.quotes b.
Proof.
  unfold Trim.
  destruct (trimLeftCut_quotes s) as [Ht [a Ha]].
  set (t := trimLeftCut s quote) in *.
  destruct (trimLeftCut_quotes (String.rev t)) as [Hu [b Hb]].
  set (u := trimLeftCut (String.rev t) quote) in *.
  assert (Htu : t = String.rev u +:+ Spec.quotes b).
  { rewrite <- (rev_involutive t), Hb, rev_app_distr, rev_quotes. reflexivity. }
  split; [|split].
  - destruct (String.rev u) as [|c out] eqn:Hout; [reflexivity|].
    unfold Spec.quote in *.
    rewrite <- (HasPrefix_app_byte _ (Spec.quotes b)) by discriminate.
    by rewrite <- Htu.
  - destruct (HasSuffix (String.rev u) quote) eqn:Hs; [|reflexivity].
    apply HasSuffix_rev in Hs. rewrite rev_involutive in Hs.
    unfold Spec.quote in *. congruence.
  - exists a, b. by rewrite <- Htu.
Qed.

Lemma fold_functionArgStep parts acc :
  Forall Spec.spaceFree parts ->
  fold_left parser.functionArgStep parts acc = acc ++ map Spec.unquote parts.
Proof.
  intros Hparts. revert acc.
  induction Hparts as [|raw parts Hraw _ IH]; intros acc; simpl.
  - by rewrite List.app_nil_r.
  - rewrite IH. unfold parser.functionArgStep at 1. rewrite (TrimSpace_spaceFree _ Hraw).
    by rewrite <- List.app_assoc.
Qed.

(** C4 (amended): [parseFunctionArgs] appends one entry per token of the
    argument text, in order; a token that both starts and ends with a
    double quote loses every double quote at its start and at its end, not
    one layer only, and any other token is appended as it is.  The text
    made of the token [short] between double quotes yields the one entry
    [short]. *)
Theorem quoted_tokens_lose_every_quote (args : string) :
  parser.parseFunctionArgs args
    = map (fun part => if Spec.isQuoted part then Trim part quote else part)
          (GoStrings.Fields args)
  /\ (forall part,
        HasPrefix (Trim part quote) quote = false
        /\ HasSuffix (Trim part quote) quote = false
        /\ exists a b, part = Spec.quotes a +:+ Trim part quote +:+ Spec.quotes b)
  /\ parser.parseFunctionArgs (quote +:+ "short" +:+ quote) = ["short"].
Proof.
  split; [|split].
  - unfold parser.parseFunctionArgs.
    by rewrite fold_functionArgStep by apply Fields_spaceFree.
  - apply Trim_quotes.
  - vm_compute. reflexivity.
Qed.

(** C4 (as stated, refuted): the token [short] between two double quotes on
    each side loses both layers; the inner one is not kept. *)
Lemma doubled_quotes_all_stripped :
  GoStrings.Fields (quote +:+ quote +:+ "short" +:+ quote +:+ quote)
    = [quote +:+ quote +:+ "short" +:+ quote +:+ quote]
  /\ parser.parseFunctionArgs (quote +:+ quote +:+ "short" +:+ quote +:+ quote) = ["short"]
  /\ parser.parseFunctionArgs (quote +:+ quote +:+ "short" +:+ quote +:+ quote)
     <> [quote +:+ "short" +:+ quote].
Proof. repeat split; vm_compute; [reflexivity.. | discriminate]. Qed.

End FunctionArgFacts.

(** ** Where the parser returns *)

Section TotalityFacts.

Variable c : ascii.

Local Abbreviation free s := (Spec.hasByte c s = false).

Lemma hasByte_app s t : Spec.hasByte c (s +:+ t) = Spec.hasByte c s || Spec.hasByte c t.
Proof.
  induction s as [|d s IH]; [reflexivity|].
  rewrite sapp_cons. simpl. by rewrite IH, orb_assoc.
Qed.

Lemma hasByte_rev s : Spec.hasByte c (String.rev s) = Spec.hasByte c s.
Proof.
  induction s as [|d s IH]; [reflexivity|].
  rewrite rev_cons, hasByte_app, IH. simpl. by rewrite orb_false_r, orb_comm.
Qed.

Lemma free_dropBytes n s : free s -> free (dropBytes n s).
Proof.
  revert s. induction n as [|n IH]; intros [|d s] H; simpl; try done.
  simpl in H. apply orb_false_elim in H as [_ H]. by apply IH.
Qed.

Lemma free_takeBytes n s : free s -> free (takeBytes n s).
Proof.
  revert s. induction n as [|n IH]; intros [|d s] H; simpl; try done.
  simpl in H. apply orb_false_elim in H as [-> H]. by apply IH.
Qed.

Lemma trimLeftSpace_dropBytes n s :
  (String.length s <= n)%nat -> exists k, trimLeftSpace s = dropBytes k s.
Proof.
  revert s. induction n as [|n IH]; intros [|c1 s1] Hlen; simpl in Hlen;
    try (by exists 0%nat); try lia.
  simpl. destruct (asciiSpace c1).
  { destruct (IH s1) as [k ->]; [lia|]. by exists (S k). }
  destruct s1 as [|c2 s2]; [by exists 0%nat|].
  destruct (isSpace2 c1 c2).
  { destruct (IH s2) as [k ->]; [simpl in Hlen; lia|]. by exists (S (S k)). }
  destruct s2 as [|c3 s3]; [by exists 0%nat|].
  destruct (isSpace3 c1 c2 c3); [|by exists 0%nat].
  destruct (IH s3) as [k ->]; [simpl in Hlen; lia|]. by exists (S (S (S k))).
Qed.

Lemma trimLeftSpaceRev_dropBytes n r :
  (String.length r <= n)%nat -> exists k, trimLeftSpaceRev r = dropBytes k r.
Proof.
  revert r. induction n as [|n IH]; intros [|c1 r1] Hlen; simpl in Hlen;
    try (by exists 0%nat); try lia.
  simpl. destruct (asciiSpace c1).
  { destruct (IH r1) as [k ->]; [lia|]. by exists (S k). }
  destruct r1 as [|c2 r2]; [by exists 0%nat|].
  destruct (isSpace2 c2 c1).
  { destruct (IH r2) as [k ->]; [simpl in Hlen; lia|]. by exists (S (S k)). }
  destruct r2 as [|c3 r3]; [by exists 0%nat|].
  destruct (isSpace3 c3 c2 c1); [|by exists 0%nat].
  destruct (IH r3) as [k ->]; [simpl in Hlen; lia|]. by exists (S (S (S k))).
Qed.

Lemma free_TrimSpace s : free s -> free (TrimSpace s).
Proof.
  intros H. unfold TrimSpace, trimRightSpace.
  destruct (trimLeftSpace_dropBytes (String.length s) s) as [k ->]; [lia|].
  set (t := dropBytes k s).
  destruct (trimLeftSpaceRev_dropBytes (String.length (String.rev t)) (String.rev t))
    as [k' ->]; [lia|].
  rewrite hasByte_rev. apply free_dropBytes. rewrite hasByte_rev.
  by apply free_dropBytes.
Qed.

Lemma free_TrimPrefix s p : free s -> free (TrimPrefix s p).
Proof. unfold TrimPrefix. destruct (HasPrefix s p); [apply free_dropBytes | done]. Qed.

Lemma free_TrimSuffix s p : free s -> free (TrimSuffix s p).
Proof. unfold TrimSuffix. destruct (HasSuffix s p); [apply free_takeBytes | done]. Qed.

Lemma free_split_go sep skip s : free s -> Forall (fun piece => free piece) (split_go sep skip s).
Proof.
  revert skip. induction s as [|d s IH]; intros skip H.
  - by repeat constructor.
  - simpl in H. apply orb_false_elim in H as [Hd H].
    cbn [split_go]. destruct skip as [|k]; [|by apply IH].
    destruct (HasPrefix (String d s) sep).
    + constructor; [reflexivity | by apply IH].
    + specialize (IH 0%nat H).
      destruct (split_go sep 0 s) as [|piece pieces].
      * repeat constructor. simpl. by rewrite Hd.
      * apply Forall_cons in IH as [Hp Hps]. constructor; [|done].
        simpl. by rewrite Hd, Hp.
Qed.

Lemma free_nth i (l : list string) :
  Forall (fun piece => free piece) l -> free (nth i l EmptyString).
Proof.
  intros Hl. revert i. induction Hl as [|x l Hx _ IH]; intros [|i]; simpl; auto.
Qed.

Lemma free_nth_Split s sep i : free s -> free (nth i (Split s sep) EmptyString).
Proof. intros H. apply free_nth. by apply free_split_go. Qed.

Lemma free_Contains s : free s -> Contains s (String c EmptyString) = false.
Proof.
  unfold Contains. induction s as [|d s IH]; intros H; [reflexivity|].
  simpl in H. apply orb_false_elim in H as [Hd H]. specialize (IH H).
  cbn [Index HasPrefix]. rewrite Hd. simpl.
  apply Z.leb_gt in IH. apply Z.ltb_lt in IH as ->. reflexivity.
Qed.

Lemma free_rawLines s : free s -> Forall (fun l => free l) (bufio.rawLines s).
Proof.
  induction s as [|d s IH]; intros H; [constructor|].
  simpl in H. apply orb_false_elim in H as [Hd H]. specialize (IH H).
  simpl. destruct (Ascii.eqb d LF); [by constructor|].
  destruct (bufio.rawLines s) as [|l ls].
  - repeat constructor. simpl. by rewrite Hd.
  - apply Forall_cons in IH as [Hl Hls]. constructor; [|done].
    simpl. by rewrite Hd, Hl.
Qed.

Lemma free_scanLines s : free s -> Forall (fun l => free l) (bufio.scanLines s).
Proof.
  intros H. unfold bufio.scanLines. apply free_rawLines in H.
  induction H as [|l ls Hl _ IH]; simpl; [constructor|].
  destruct (bufio.fits l); simpl; [|constructor].
  constructor; [by apply free_TrimSuffix | exact IH].
Qed.

End TotalityFacts.

Section Totality.

Local Abbreviation open := "("%char.

(** [parseField] reaches a slice expression only past an opening
    parenthesis. *)
Lemma parseField_returns line :
  Spec.hasByte open line = false -> exists f, parser.parseField line = Returned f.
Proof.
  intros H. unfold parser.parseField.
  set (parts := Split _ " is ").
  destruct (negb (length parts =? 2)%nat); [by eexists|].
  assert (Htype : Spec.hasByte open (TrimSpace (nth 1 parts EmptyString)) = false).
  { apply free_TrimSpace, free_nth_Split, free_TrimSpace, free_TrimPrefix, H. }
  set (typeDef := TrimSpace (nth 1 parts EmptyString)) in *.
  destruct (HasPrefix typeDef "action").
  { destruct (length (Split typeDef " thru ") =? 2)%nat; [|by eexists].
    cbn [Field.ActionType Field.set_ActionType].
    rewrite (free_Contains open) by by apply free_TrimSpace, free_nth_Split.
    by eexists. }
  destruct (HasPrefix typeDef "many").
  { destruct (length (Split typeDef " thru ") =? 2)%nat; by eexists. }
  destruct (Contains typeDef " thru "); [|by eexists].
  rewrite (free_Contains open) by by apply free_TrimSpace, free_nth_Split.
  by eexists.
Qed.

Lemma parseLines_returns texts st :
  Forall (fun text => Spec.hasByte open text = false) texts ->
  exists st', parser.parseLines texts st = Returned st'.
Proof.
  intros Htexts. revert st. induction Htexts as [|text texts Ht _ IH]; intros st.
  - by eexists.
  - cbn [parser.parseLines]. unfold parser.parseLine.
    destruct (String.eqb (TrimSpace text) EmptyString); [apply IH|].
    destruct (negb (HasPrefix (TrimSpace text) "-")); [apply IH|].
    destruct (parser.currentEntity st) as [i|]; [|apply IH].
    destruct (parseField_returns (TrimSpace text)) as [f ->];
      [by apply free_TrimSpace | apply IH].
Qed.

(** On a source text without opening parenthesis, [ParseStateQL] returns a
    model and the [nil] error. *)
Lemma ParseStateQL_returns content :
  Spec.hasByte open content = false ->
  exists m, parser.ParseStateQL content = Returned (m, None).
Proof.
  intros H. unfold parser.ParseStateQL.
  destruct (parseLines_returns (bufio.scanLines content) parser.initialState) as [st ->].
  - by apply free_scanLines.
  - by eexists.
Qed.

End Totality.

(** ** The Entity Block Builder *)

Section BuilderFacts.

Local Abbreviation Entities st := (StateQL.Entities (parser.stateql st)).

Lemma parseLines_app l1 l2 st :
  parser.parseLines (l1 ++ l2) st = parser.parseLines l1 st ≫= parser.parseLines l2.
Proof.
  revert st. induction l1 as [|l l1 IH]; intros st; simpl; [reflexivity|].
  destruct (parser.parseLine l st) as [st1|]; simpl; [apply IH | reflexivity].
Qed.

(** The scanner hands the lines of a text to the loop one by one. *)
Lemma parseLines_scanLines ls st :
  Forall (fun l => Spec.hasByte LF l = false /\ bufio.fits l = true) ls ->
  parser.parseLines (bufio.scanLines (Spec.unlines ls)) st =
  parser.parseLines (map bufio.dropCR ls) st.
Proof.
  unfold Spec.unlines, bufio.scanLines.
  intros Hls. revert st. induction Hls as [|l ls [Hlf Hfit] Hls IH]; intros st.
  - reflexivity.
  - destruct ls as [|l' ls'].
    + simpl Join. destruct l as [|c l]; [reflexivity|].
      rewrite rawLines_last by done. simpl. by rewrite Hfit.
    + change (Join (l :: l' :: ls') (String LF EmptyString))
        with (l +:+ String LF EmptyString +:+ Join (l' :: ls') (String LF EmptyString)).
      change (String LF EmptyString +:+ ?r) with (String LF r).
      rewrite rawLines_line by done. simpl bufio.untilTooLong. rewrite Hfit.
      simpl. destruct (parser.parseLine _ st); simpl; [apply IH | reflexivity].
Qed.

Lemma HasPrefix_nonempty s p :
  HasPrefix s (String p EmptyString) = true -> String.eqb s EmptyString = false.
Proof. by destruct s. Qed.

Lemma parseLine_blank l st :
  Spec.isBlank l = true -> parser.parseLine (bufio.dropCR l) st = Returned st.
Proof.
  unfold Spec.isBlank, parser.parseLine. rewrite TrimSpace_dropCR.
  by intros ->.
Qed.

Lemma parseLine_header l st :
  Spec.isHeader l = true ->
  parser.parseLine (bufio.dropCR l) st =
  Returned (parser.mkScanState
              (StateQL.mk (Entities st ++ [Entity.mk (Spec.headerName l) []]))
              (Some (length (Entities st)))).
Proof.
  unfold Spec.isHeader, Spec.isBlank, Spec.isFieldLine, Spec.headerName, parser.parseLine.
  rewrite TrimSpace_dropCR.
  intros [Hb Hf]%andb_prop. apply negb_true_iff in Hb. rewrite Hb, Hf.
  simpl. rewrite length_app. simpl.
  by replace (length (Entities st) + 1 - 1)%nat with (length (Entities st)) by lia.
Qed.

Lemma parseLine_field l st :
  Spec.isFieldLine l = true ->
  parser.parseLine (bufio.dropCR l) st =
  match parser.currentEntity st with
  | Some i =>
      field ← parser.parseField (TrimSpace l);
      mret (parser.mkScanState
              (StateQL.mk (alter (Entity.add_Field field) i (Entities st)))
              (parser.currentEntity st))
  | None => mret st
  end.
Proof.
  unfold Spec.isFieldLine, parser.parseLine. rewrite TrimSpace_dropCR.
  intros Hf. by rewrite (HasPrefix_nonempty _ _ Hf), Hf.
Qed.

Lemma line_cases l :
  Spec.isBlank l = true \/ Spec.isHeader l = true \/ Spec.isFieldLine l = true.
Proof.
  unfold Spec.isHeader.
  destruct (Spec.isBlank l), (Spec.isFieldLine l); simpl; auto.
Qed.

Lemma blank_not_field l : Spec.isBlank l = true -> Spec.isFieldLine l = false.
Proof.
  unfold Spec.isBlank, Spec.isFieldLine. intros ->%String.eqb_eq. reflexivity.
Qed.

Lemma blank_not_header l : Spec.isBlank l = true -> Spec.isHeader l = false.
Proof. unfold Spec.isHeader. by intros ->. Qed.

Lemma field_not_header l : Spec.isFieldLine l = true -> Spec.isHeader l = false.
Proof. unfold Spec.isHeader. intros ->. apply andb_false_r. Qed.

(** *** Entity names *)

Lemma map_Name_alter f i (ents : list Entity.t) :
  map Entity.Name (alter (Entity.add_Field f) i ents) = map Entity.Name ents.
Proof.
  revert i. induction ents as [|e ents IH]; intros [|i]; simpl; try reflexivity.
  f_equal. apply IH.
Qed.

Lemma parseLine_names text st st' :
  parser.parseLine text st = Returned st' ->
  map Entity.Name (Entities st') =
  map Entity.Name (Entities st) ++ Spec.headerNames [text].
Proof.
  unfold parser.parseLine, Spec.headerNames, Spec.isHeader, Spec.isBlank,
    Spec.isFieldLine, Spec.headerName.
  simpl List.filter.
  destruct (String.eqb (TrimSpace text) EmptyString); simpl.
  { intros [= <-]. by rewrite List.app_nil_r. }
  destruct (HasPrefix (TrimSpace text) "-"); simpl.
  - destruct (parser.currentEntity st) as [i|].
    + destruct (parser.parseField _) as [f|]; simpl; [|discriminate].
      intros [= <-]. simpl. by rewrite map_Name_alter, List.app_nil_r.
    + intros [= <-]. by rewrite List.app_nil_r.
  - intros [= <-]. simpl. by rewrite map_app.
Qed.

Lemma headerNames_cons text texts :
  Spec.headerNames (text :: texts) = Spec.headerNames [text] ++ Spec.headerNames texts.
Proof.
  unfold Spec.headerNames. simpl. by destruct (Spec.isHeader text).
Qed.

Lemma parseLines_names texts st st' :
  parser.parseLines texts st = Returned st' ->
  map Entity.Name (Entities st') =
  map Entity.Name (Entities st) ++ Spec.headerNames texts.
Proof.
  revert st. induction texts as [|text texts IH]; intros st; outcome_simpl.
  - intros [= <-]. by rewrite List.app_nil_r.
  - destruct (parser.parseLine text st) as [st1|] eqn:H1; outcome_simpl; [|discriminate].
    intros H. rewrite (headerNames_cons text texts).
    rewrite (IH _ H), (parseLine_names _ _ _ H1).
    symmetry. apply List.app_assoc.
Qed.

(** *** Nothing appended is changed or removed *)

Lemma parseLine_grows text st st' i e :
  parser.parseLine text st = Returned st' ->
  Entities st !! i = Some e ->
  exists more, Entities st' !! i = Some (Entity.mk (Entity.Name e) (Entity.Fields e ++ more)).
Proof.
  unfold parser.parseLine. intros Hstep He.
  destruct (String.eqb (TrimSpace text) EmptyString).
  { injection Hstep as <-. exists []. rewrite He, List.app_nil_r. by destruct e. }
  destruct (HasPrefix (TrimSpace text) "-"); simpl in Hstep.
  - destruct (parser.currentEntity st) as [j|].
    + destruct (parser.parseField _) as [f|]; outcome_simpl; [|discriminate].
      injection Hstep as <-. simpl.
      destruct (decide (j = i)) as [->|Hne].
      * exists [f]. by rewrite list_lookup_alter_eq, He.
      * exists []. rewrite list_lookup_alter_ne, He, List.app_nil_r by done.
        by destruct e.
    + injection Hstep as <-. exists []. rewrite He, List.app_nil_r. by destruct e.
  - injection Hstep as <-. simpl. exists [].
    rewrite lookup_app_l by (by eapply lookup_lt_Some).
    rewrite He, List.app_nil_r. by destruct e.
Qed.

Lemma parseLines_grows texts st st' i e :
  parser.parseLines texts st = Returned st' ->
  Entities st !! i = Some e ->
  exists more, Entities st' !! i = Some (Entity.mk (Entity.Name e) (Entity.Fields e ++ more)).
Proof.
  revert st e. induction texts as [|text texts IH]; intros st e; outcome_simpl.
  - intros [= <-] He. exists []. rewrite He, List.app_nil_r. by destruct e.
  - destruct (parser.parseLine text st) as [st1|] eqn:H1; outcome_simpl; [|discriminate].
    intros Hrest He.
    destruct (parseLine_grows _ _ _ _ _ H1 He) as [more1 He1].
    destruct (IH _ _ Hrest He1) as [more2 He2].
    exists (more1 ++ more2). simpl in He2. by rewrite List.app_assoc.
Qed.

(** *** Blocks *)

Lemma wellFormedLine_field l :
  Spec.wellFormedLine l = true -> Spec.isFieldLine l = true ->
  exists f, parser.parseField (TrimSpace l) = Returned f.
Proof.
  unfold Spec.wellFormedLine, Spec.fieldParses.
  intros [_ H]%andb_prop Hf. rewrite Hf in H. simpl in H.
  destruct (parser.parseField (TrimSpace l)) as [f|]; [by exists f | discriminate].
Qed.

Lemma wellFormedLine_scans l :
  Spec.wellFormedLine l = true -> Spec.hasByte LF l = false /\ bufio.fits l = true.
Proof.
  unfold Spec.wellFormedLine.
  intros [[H1 H2]%andb_prop _]%andb_prop. by apply negb_true_iff in H1.
Qed.

Lemma alter_last {A} (g : A -> A) (l : list A) (x : A) :
  alter g (length l) (l ++ [x]) = l ++ [g x].
Proof.
  replace (length l) with (length l + 0)%nat by lia.
  by rewrite alter_app_r.
Qed.

(** The field lines that follow a header fill the entity of that header,
    in their order. *)
Lemma parseLines_fields body ents cur :
  Forall (fun l => Spec.wellFormedLine l = true) body ->
  Forall (fun l => Spec.isHeader l = false) body ->
  exists fs,
    parser.parseLines (map bufio.dropCR body)
      (parser.mkScanState (StateQL.mk (ents ++ [cur])) (Some (length ents)))
    = Returned (parser.mkScanState
                  (StateQL.mk (ents ++ [Entity.mk (Entity.Name cur) (Entity.Fields cur ++ fs)]))
                  (Some (length ents)))
    /\ Forall2 (fun l f => parser.parseField (TrimSpace l) = Returned f)
               (List.filter Spec.isFieldLine body) fs.
Proof.
  intros Hwf. revert cur. induction Hwf as [|l body Hl Hwf IH]; intros cur Hnh.
  - exists []. split; [|constructor].
    destruct cur as [n fs]. simpl. by rewrite List.app_nil_r.
  - inversion Hnh as [|? ? Hl' Hnh']; subst.
    destruct (line_cases l) as [Hb | [Hh | Hf]]; [| congruence |].
    + destruct (IH cur Hnh') as (fs & Hrun & Hfs).
      exists fs. simpl. rewrite (parseLine_blank _ _ Hb), (blank_not_field _ Hb).
      by split.
    + destruct (wellFormedLine_field _ Hl Hf) as [f Hpf].
      destruct (IH (Entity.add_Field f cur) Hnh') as (fs & Hrun & Hfs).
      exists (f :: fs). simpl. rewrite (parseLine_field _ _ Hf), Hf. simpl.
      rewrite Hpf. outcome_simpl. rewrite alter_last. split.
      * rewrite Hrun. by rewrite <- List.app_assoc.
      * by constructor.
Qed.

Lemma parseLine_wellFormed l st :
  Spec.wellFormedLine l = true -> Spec.pointsToLast st ->
  exists st',
    parser.parseLine (bufio.dropCR l) st = Returned st'
    /\ Spec.pointsToLast st'
    /\ length (Entities st') = (length (Entities st) + length (List.filter Spec.isHeader [l]))%nat
    /\ forall k, (S k < length (Entities st))%nat -> Entities st' !! k = Entities st !! k.
Proof.
  intros Hl Hst. unfold Spec.pointsToLast in *. simpl List.filter.
  destruct (line_cases l) as [Hb | [Hh | Hf]].
  - exists st. rewrite (parseLine_blank _ _ Hb), (blank_not_header _ Hb). simpl.
    split; [done|]. split; [done|]. split; [lia|done].
  - eexists. rewrite (parseLine_header _ _ Hh), Hh. split; [reflexivity|]. simpl.
    rewrite length_app. simpl. split; [|split; [done|]].
    + by replace (length (Entities st) + 1)%nat with (S (length (Entities st))) by lia.
    + intros k Hk. apply lookup_app_l. lia.
  - rewrite (parseLine_field _ _ Hf), (field_not_header _ Hf). simpl.
    destruct (wellFormedLine_field _ Hl Hf) as [f ->]. outcome_simpl.
    rewrite Hst. destruct (Entities st) as [|e ents] eqn:He; simpl.
    + exists st. rewrite He. simpl. split; [done|]. split; [done|]. split; [lia|done].
    + eexists. split; [reflexivity|]. simpl. rewrite length_alter. simpl.
      split; [done|]. split; [lia|].
      intros k Hk. apply list_lookup_alter_ne. lia.
Qed.

(** On well-formed lines the loop returns; it adds one entity per header
    line and leaves the entities before the current one as they are. *)
Lemma parseLines_wellFormed ls st :
  Forall (fun l => Spec.wellFormedLine l = true) ls -> Spec.pointsToLast st ->
  exists st',
    parser.parseLines (map bufio.dropCR ls) st = Returned st'
    /\ Spec.pointsToLast st'
    /\ length (Entities st') = (length (Entities st) + length (List.filter Spec.isHeader ls))%nat
    /\ forall k, (S k < length (Entities st))%nat -> Entities st' !! k = Entities st !! k.
Proof.
  intros Hwf. revert st. induction Hwf as [|l ls Hl Hwf IH]; intros st Hst.
  - exists st. simpl. repeat split; [done | lia].
  - destruct (parseLine_wellFormed l st Hl Hst) as (st1 & H1 & Hp1 & Hlen1 & Hk1).
    destruct (IH st1 Hp1) as (st' & H' & Hp' & Hlen' & Hk').
    exists st'. simpl. rewrite H1. outcome_simpl. split; [done|]. split; [done|]. split.
    + rewrite Hlen', Hlen1. destruct (Spec.isHeader l); simpl; lia.
    + intros k Hk. rewrite Hk' by lia. by apply Hk1.
Qed.

Lemma pointsToLast_initial : Spec.pointsToLast parser.initialState.
Proof. reflexivity. Qed.

Lemma TrimSuffix_without s suffix :
  (forall n, s <> n +:+ suffix) -> TrimSuffix s suffix = s.
Proof.
  intros Hno. unfold TrimSuffix.
  destruct (HasSuffix s suffix) eqn:Hs; [|reflexivity].
  destruct (HasSuffix_split _ _ Hs) as [n Hn]. by destruct (Hno n).
Qed.

(** The name of a header line, told without [strings.TrimSuffix]: when the
    trimmed line is a text [n] followed by one colon, the name is [n], be
    there colons at the end of [n] or not; when the trimmed line does not
    end in a colon, the name is the trimmed line. *)
Lemma headerName_strips header :
  (forall n, TrimSpace header = n +:+ ":" -> Spec.headerName header = n)
  /\ ((forall n, TrimSpace header <> n +:+ ":") -> Spec.headerName header = TrimSpace header)
  /\ (forall n, header = n +:+ ":" -> Spec.spaceFree header -> Spec.headerName header = n).
Proof.
  unfold Spec.headerName. split; [|split].
  - intros n ->. apply TrimSuffix_app.
  - apply TrimSuffix_without.
  - intros n Hn Hfree. rewrite (TrimSpace_spaceFree _ Hfree), Hn. apply TrimSuffix_app.
Qed.

(** C2: in a well-formed source text, a header line followed by field lines
    (blank lines may stand between them) up to the next header line or the
    end of the text yields an entity whose fields are the parsed field
    lines, as many and in the same order, and whose name is the header line,
    trimmed, with one trailing colon stripped: the text [n] when the trimmed
    header line is [n] followed by a colon (so [n] itself when the header
    line is [n:] and holds no white space), the trimmed header line when it
    does not end in a colon.  The entity stands in the model at the position
    of its header among the header lines. *)
Theorem entity_block_parsed (before body after : list string) (header : string) :
  Forall (fun l => Spec.wellFormedLine l = true) (before ++ header :: body ++ after) ->
  Spec.isHeader header = true ->
  Forall (fun l => Spec.isHeader l = false) body ->
  match after with [] => True | next :: _ => Spec.isHeader next = true end ->
  exists m fields,
    parser.ParseStateQL (Spec.unlines (before ++ header :: body ++ after)) = Returned (m, None)
    /\ StateQL.Entities m !! length (List.filter Spec.isHeader before)
       = Some (Entity.mk (Spec.headerName header) fields)
    /\ Forall2 (fun l f => parser.parseField (TrimSpace l) = Returned f)
         (List.filter Spec.isFieldLine body) fields
    /\ length (List.filter Spec.isFieldLine body) = length fields
    /\ (forall n, TrimSpace header = n +:+ ":" -> Spec.headerName header = n)
    /\ ((forall n, TrimSpace header <> n +:+ ":") ->
        Spec.headerName header = TrimSpace header)
    /\ (forall n, header = n +:+ ":" -> Spec.spaceFree header ->
        Spec.headerName header = n).
Proof.
  intros Hwf Hh Hbody Hafter.
  unfold parser.ParseStateQL.
  rewrite parseLines_scanLines
    by (eapply Forall_impl; [exact Hwf | apply wellFormedLine_scans]).
  apply Forall_app in Hwf as [Hwf1 Hwf]. apply Forall_cons in Hwf as [_ Hwf].
  apply Forall_app in Hwf as [Hwf2 Hwf3].
  rewrite map_app, parseLines_app.
  destruct (parseLines_wellFormed before _ Hwf1 pointsToLast_initial)
    as (st1 & -> & Hp1 & Hlen1 & _).
  simpl in Hlen1. rewrite <- Hlen1. outcome_simpl.
  rewrite (parseLine_header _ _ Hh). outcome_simpl.
  rewrite map_app, parseLines_app.
  destruct (parseLines_fields body (Entities st1) (Entity.mk (Spec.headerName header) [])
              Hwf2 Hbody) as (fields & -> & Hfields).
  simpl Entity.Name. simpl Entity.Fields. simpl app at 2. outcome_simpl.
  destruct after as [|next rest].
  - eexists _, fields. outcome_simpl. split; [reflexivity|].
    split; [|split; [done|split; [by apply Forall2_length in Hfields|apply headerName_strips]]].
    simpl. by rewrite list_lookup_middle.
  - apply Forall_cons in Hwf3 as [_ Hwf3].
    outcome_simpl. rewrite (parseLine_header _ _ Hafter). outcome_simpl.
    match goal with
    | |- context [parser.parseLines _ ?st] =>
        destruct (parseLines_wellFormed rest st Hwf3) as (st5 & -> & _ & _ & Hstable)
    end.
    { unfold Spec.pointsToLast. simpl.
      rewrite (length_app (_ ++ _) [_]). simpl length. by rewrite Nat.add_1_r. }
    eexists _, fields. outcome_simpl. split; [reflexivity|].
    split; [|split; [done|split; [by apply Forall2_length in Hfields|apply headerName_strips]]].
    rewrite Hstable.
    + simpl. rewrite <- List.app_assoc. by apply list_lookup_middle.
    + simpl. rewrite !length_app. simpl. lia.
Qed.

(** A source text on which the hypotheses of [entity_block_parsed] hold: the
    block of [User], whose header line is [User:], stands between the blocks
    of [Project] and [Task]; it yields the second entity of the model, named
    [User], with two fields. *)
Lemma entity_block_parsed_witness :
  exists m fields,
    parser.ParseStateQL
      (Spec.unlines (["Project:"; "- title is text"; EmptyString] ++
                     "User:" :: ["- id is text"; EmptyString; "- friends is many User thru befriendedBy"] ++
                     ["Task:"; "- done is switch"]))
    = Returned (m, None)
    /\ StateQL.Entities m !! 1%nat = Some (Entity.mk "User" fields)
    /\ Forall2 (fun l f => parser.parseField (TrimSpace l) = Returned f)
         ["- id is text"; "- friends is many User thru befriendedBy"] fields
    /\ 2%nat = length fields
    /\ (forall n, "User:" = n +:+ ":" -> "User" = n)
    /\ ((forall n, "User:" <> n +:+ ":") -> "User" = "User:")
    /\ (forall n, "User:" = n +:+ ":" -> Spec.spaceFree "User:" -> "User" = n).
Proof.
  apply (entity_block_parsed
           ["Project:"; "- title is text"; EmptyString]
           ["- id is text"; EmptyString; "- friends is many User thru befriendedBy"]
           ["Task:"; "- done is switch"] "User:").
  - repeat constructor.
  - reflexivity.
  - repeat constructor.
  - reflexivity.
Defined.

(** [ParseStateQL] has one [return], and its error is [nil]. *)
Lemma ParseStateQL_error_nil content m err :
  parser.ParseStateQL content = Returned (m, err) -> err = None.
Proof.
  unfold parser.ParseStateQL.
  destruct (parser.parseLines _ _) as [st|]; outcome_simpl; [|discriminate].
  by intros [= _ <-].
Qed.

(** C7 (the code at the failing input): on a source whose field line opens
    a parenthesis and never closes it, [ParseStateQL] returns neither a
    model nor an error: it panics. *)
Theorem ParseStateQL_panics_on_unclosed_parenthesis :
  parser.ParseStateQL (Spec.unlines ["Task:"; "- summary is text thru summarize(content"])
  = Panicked.
Proof. vm_compute. reflexivity. Qed.

Lemma headerNames_dropCR l : Spec.headerNames [bufio.dropCR l] = Spec.headerNames [l].
Proof.
  unfold Spec.headerNames, Spec.isHeader, Spec.isBlank, Spec.isFieldLine, Spec.headerName.
  simpl. rewrite TrimSpace_dropCR.
  destruct (negb _ && negb _); simpl; by rewrite ?TrimSpace_dropCR.
Qed.

(** When every line of a text is short enough for the scanner, the header
    lines that the scanner reads are the header lines of the text. *)
Lemma headerNames_scanLines ls :
  Forall (fun l => Spec.hasByte LF l = false /\ bufio.fits l = true) ls ->
  Spec.headerNames (bufio.scanLines (Spec.unlines ls)) = Spec.headerNames ls.
Proof.
  unfold Spec.unlines, bufio.scanLines.
  intros Hls. induction Hls as [|l ls [Hlf Hfit] Hls IH].
  - reflexivity.
  - destruct ls as [|l' ls'].
    + simpl Join. destruct l as [|c l]; [reflexivity|].
      rewrite rawLines_last by done. simpl. rewrite Hfit. apply headerNames_dropCR.
    + change (Join (l :: l' :: ls') (String LF EmptyString))
        with (l +:+ String LF EmptyString +:+ Join (l' :: ls') (String LF EmptyString)).
      change (String LF EmptyString +:+ ?r) with (String LF r).
      rewrite rawLines_line by done. cbn [bufio.untilTooLong]. rewrite Hfit.
      cbn [map].
      rewrite (headerNames_cons (bufio.dropCR l)), (headerNames_cons l (l' :: ls')).
      by rewrite IH, headerNames_dropCR.
Qed.

(** C8 (amended): the entity names of a parsed model are the names of the
    header lines that the scanner read, in their order and with their
    repetitions; so they are pairwise distinct exactly when the names of
    those header lines are.  The scanner stops at a line of
    [bufio.MaxScanTokenSize] bytes or more; when every line of the source is
    shorter, the header lines read are all header lines of the source, and
    the entity names are their names. *)
Theorem entity_names_are_header_names (content : string) (m : StateQL.t) (err : option error) :
  parser.ParseStateQL content = Returned (m, err) ->
  map Entity.Name (StateQL.Entities m) = Spec.headerNames (bufio.scanLines content)
  /\ (NoDup (map Entity.Name (StateQL.Entities m))
      <-> NoDup (Spec.headerNames (bufio.scanLines content)))
  /\ (forall ls,
        content = Spec.unlines ls ->
        Forall (fun l => Notions.scannable l = true) ls ->
        map Entity.Name (StateQL.Entities m)
          = map Spec.headerName (List.filter Spec.isHeader ls)
        /\ (NoDup (map Entity.Name (StateQL.Entities m))
            <-> NoDup (map Spec.headerName (List.filter Spec.isHeader ls)))).
Proof.
  unfold parser.ParseStateQL.
  destruct (parser.parseLines _ _) as [st|] eqn:Hst; outcome_simpl; [|discriminate].
  intros [= <- _]. apply parseLines_names in Hst. simpl in Hst.
  rewrite Hst. split; [reflexivity|]. split; [reflexivity|].
  intros ls -> Hls. fold (Spec.headerNames ls).
  rewrite headerNames_scanLines; [done|].
  eapply Forall_impl; [exact Hls|].
  unfold Notions.scannable. intros l [H1 H2]%andb_prop. by apply negb_true_iff in H1.
Qed.

(** A source with three header lines, two of them with the same name: the
    model has three entities with these names, in this order. *)
Lemma entity_names_are_header_names_witness :
  parser.ParseStateQL
    (Spec.unlines ["User:"; "- id is text"; "Task:"; "- title is text"; "User:"])
  = Returned (StateQL.mk [Entity.mk "User" [Sample.idField];
                          Entity.mk "Task"
                            [Field.set_Type "text" (Field.set_Name "title" Field.zero)];
                          Entity.mk "User" []], None)
  /\ ["User"; "Task"; "User"]
     = Spec.headerNames (bufio.scanLines
         (Spec.unlines ["User:"; "- id is text"; "Task:"; "- title is text"; "User:"]))
  /\ (NoDup ["User"; "Task"; "User"]
      <-> NoDup (Spec.headerNames (bufio.scanLines
            (Spec.unlines ["User:"; "- id is text"; "Task:"; "- title is text"; "User:"]))))
  /\ (forall ls,
        Spec.unlines ["User:"; "- id is text"; "Task:"; "- title is text"; "User:"]
          = Spec.unlines ls ->
        Forall (fun l => Notions.scannable l = true) ls ->
        ["User"; "Task"; "User"] = map Spec.headerName (List.filter Spec.isHeader ls)
        /\ (NoDup ["User"; "Task"; "User"]
            <-> NoDup (map Spec.headerName (List.filter Spec.isHeader ls)))).
Proof.
  assert (H : parser.ParseStateQL
    (Spec.unlines ["User:"; "- id is text"; "Task:"; "- title is text"; "User:"])
  = Returned (StateQL.mk [Entity.mk "User" [Sample.idField];
                          Entity.mk "Task"
                            [Field.set_Type "text" (Field.set_Name "title" Field.zero)];
                          Entity.mk "User" []], None))
    by (vm_compute; reflexivity).
  split; [exact H|].
  exact (entity_names_are_header_names _ _ _ H).
Defined.

(** C8 (as stated, refuted): a source with two header lines [User:] parses
    to a model with two entities named [User]. *)
Lemma duplicate_entity_names :
  exists m,
    parser.ParseStateQL (Spec.unlines ["User:"; "- id is text"; "User:"; "- name is text"])
      = Returned (m, None)
    /\ map Entity.Name (StateQL.Entities m) = ["User"; "User"]
    /\ ~ NoDup (map Entity.Name (StateQL.Entities m)).
Proof.
  eexists. split; [vm_compute; reflexivity|]. split; [reflexivity|].
  simpl. intros Hnd. apply NoDup_cons in Hnd as [Hin _].
  apply Hin. by left.
Qed.

(** C9: the slice expressions of [parseField] that take the argument text
    panic when the closing parenthesis is missing, [strings.Index] being
    [-1] then: [parseField] panics on such an action line and on such a
    computed-field line, and [ParseStateQL] reaches it. *)
Theorem parseField_panics_without_closing_parenthesis :
  Index "put(files" ")" = -1
  /\ slice "put(files" (Index "put(files" "(" + 1) (Index "put(files" ")") = Panicked
  /\ parser.parseField "- x is action thru put(files" = Panicked
  /\ parser.parseField "- total is number thru count(items" = Panicked
  /\ parser.ParseStateQL (Spec.unlines ["Task:"; "- x is action thru put(files"]) = Panicked.
Proof. repeat split; vm_compute; reflexivity. Qed.

End BuilderFacts.

(** ** The schema generator *)

Section SchemaFacts.

Variable unicodeLower : string -> string.
Variable DB : Type.
Variable Exec : string -> DB -> DB * option error.

Local Abbreviation ToLower := (db.ToLower unicodeLower).
Local Abbreviation session := (db.session DB).
Local Abbreviation exec := (db.exec DB Exec).
Local Abbreviation forEach := (db.forEach DB).
Local Abbreviation addColumn := (db.addColumn unicodeLower).
Local Abbreviation createTableSQL := (db.createTableSQL unicodeLower).
Local Abbreviation createTable := (db.createTable unicodeLower DB Exec).
Local Abbreviation createRelationships := (db.createRelationships unicodeLower DB Exec).
Local Abbreviation GenerateSchema := (db.GenerateSchema unicodeLower DB Exec).
Local Abbreviation columnDef := (Spec.columnDef unicodeLower).
Local Abbreviation tableColumns := (Spec.tableColumns unicodeLower).
Local Abbreviation tableStatement := (Spec.tableStatement unicodeLower).
Local Abbreviation junctionStatements := (Spec.junctionStatements unicodeLower).
Local Abbreviation statements := (Spec.statements unicodeLower).

Lemma materialized_flags f :
  Spec.materialized f = negb (Field.IsMany f) && negb (Field.IsAction f).
Proof.
  unfold Spec.materialized, Spec.kindOf.
  destruct (Field.IsAction f), (Field.IsMany f); simpl; try reflexivity.
  by destruct (String.eqb _ _).
Qed.

Lemma fold_addColumn fields acc :
  fold_left addColumn fields acc =
  acc +:+ Spec.commaTerminated (map columnDef (List.filter Spec.materialized fields)).
Proof.
  revert acc. induction fields as [|f fields IH]; intros acc; simpl.
  - by rewrite sapp_nil_r.
  - rewrite IH. unfold db.addColumn. rewrite materialized_flags.
    destruct (negb (Field.IsMany f) && negb (Field.IsAction f)); [|reflexivity].
    simpl. unfold Spec.columnDef. by rewrite !sapp_assoc.
Qed.

Lemma Join_comma c cols :
  Join (c :: cols) "," +:+ "," = c +:+ "," +:+ Spec.commaTerminated cols.
Proof.
  revert c. induction cols as [|c' cols IH]; intros c.
  - reflexivity.
  - change (Join (c :: c' :: cols) ",") with (c +:+ "," +:+ Join (c' :: cols) ",").
    rewrite !sapp_assoc, IH. reflexivity.
Qed.

Lemma createTableSQL_columns entity :
  createTableSQL entity = tableStatement entity.
Proof.
  unfold db.createTableSQL, Spec.tableStatement, Spec.tableColumns.
  rewrite fold_addColumn.
  set (cols := map columnDef _).
  set (head := "CREATE TABLE IF NOT EXISTS " +:+ ToLower (Entity.Name entity) +:+ " (").
  replace ((head +:+ "id SERIAL PRIMARY KEY,") +:+ Spec.commaTerminated cols)
    with ((head +:+ Join ("id SERIAL PRIMARY KEY" :: cols) ",") +:+ ",").
  - rewrite TrimSuffix_app. unfold head. by rewrite !sapp_assoc.
  - rewrite sapp_assoc, Join_comma. by rewrite !sapp_assoc.
Qed.

(** *** Sequencing *)

Lemma forEach_app {A} (body : A -> session -> session * option error) l1 l2 s :
  forEach body (l1 ++ l2) s =
  match forEach body l1 s with
  | (s1, None) => forEach body l2 s1
  | (s1, Some e) => (s1, Some e)
  end.
Proof.
  revert s. induction l1 as [|x l1 IH]; intros s; simpl; [reflexivity|].
  destruct (body x s) as [s' [e|]]; [reflexivity|]. apply IH.
Qed.

Lemma forEach_map {A B} (g : A -> B) (body : B -> session -> session * option error) l s :
  forEach body (map g l) s = forEach (fun x => body (g x)) l s.
Proof.
  revert s. induction l as [|x l IH]; intros s; simpl; [reflexivity|].
  destruct (body (g x) s) as [s' [e|]]; [reflexivity|]. apply IH.
Qed.

Lemma forEach_ext {A} (b1 b2 : A -> session -> session * option error) l s :
  (forall x s, b1 x s = b2 x s) -> forEach b1 l s = forEach b2 l s.
Proof.
  intros Hb. revert s. induction l as [|x l IH]; intros s; simpl; [reflexivity|].
  rewrite Hb. destruct (b2 x s) as [s' [e|]]; [reflexivity|]. apply IH.
Qed.

Lemma forEach_flat_map {A} (g : A -> list string) l s :
  forEach (fun x => forEach exec (g x)) l s = forEach exec (flat_map g l) s.
Proof.
  revert s. induction l as [|x l IH]; intros s; simpl; [reflexivity|].
  rewrite forEach_app.
  destruct (forEach exec (g x) s) as [s' [e|]]; [reflexivity|]. apply IH.
Qed.

Lemma createRelationships_statements entity s :
  createRelationships entity s = forEach exec (junctionStatements entity) s.
Proof.
  unfold db.createRelationships, Spec.junctionStatements.
  generalize (Entity.Fields entity) as fields. intros fields. revert s.
  induction fields as [|f fields IH]; intros s; simpl; [reflexivity|].
  destruct (Field.IsMany f); simpl.
  - destruct (exec _ s) as [s' [e|]]; [reflexivity|]. apply IH.
  - apply IH.
Qed.

(** [GenerateSchema] runs the statements of the model in order and stops at
    the first that fails. *)
Lemma GenerateSchema_statements m s :
  GenerateSchema m s = forEach exec (statements m) s.
Proof.
  unfold db.GenerateSchema, Spec.statements.
  rewrite forEach_app, forEach_map.
  rewrite (forEach_ext createTable (fun x => exec (tableStatement x))).
  2:{ intros x s'. unfold db.createTable. by rewrite createTableSQL_columns. }
  destruct (forEach _ (StateQL.Entities m) s) as [s1 [e|]]; [reflexivity|].
  rewrite (forEach_ext createRelationships (fun x => forEach exec (junctionStatements x))).
  - apply forEach_flat_map.
  - apply createRelationships_statements.
Qed.

Lemma forEach_exec_succeeds (stmts : list string) (s : session) :
  (forall i q, stmts !! i = Some q ->
     snd (Exec q (Spec.storeAfter Exec (take i stmts) (db.store DB s))) = None) ->
  forEach exec stmts s =
  (db.mkSession DB (Spec.storeAfter Exec stmts (db.store DB s)) (db.issued DB s ++ stmts), None).
Proof.
  revert s. induction stmts as [|q stmts IH]; intros [d log] Hok; simpl.
  - by rewrite List.app_nil_r.
  - unfold db.exec. simpl.
    pose proof (Hok 0%nat q eq_refl) as H0. simpl in H0.
    destruct (Exec q d) as [d1 err] eqn:HE. simpl in H0. subst err.
    rewrite IH.
    + simpl. by rewrite <- List.app_assoc.
    + intros i q' Hi. specialize (Hok (S i) q' Hi). simpl in Hok.
      by rewrite HE in Hok.
Qed.


(** C6: when the executor fails on a statement of the model's sequence,
    having accepted the statements before it, [GenerateSchema] returns that
    error as it is; the statements issued are those before the failing one
    and the failing one, and no other; the store is the one the executor
    left after them: nothing is undone. *)
Theorem GenerateSchema_aborts_on_first_failure
    (m : StateQL.t) (s : session) (pre post : list string) (sql : string)
    (d' : DB) (e : error) :
  statements m = pre ++ sql :: post ->
  (forall i q, pre !! i = Some q ->
     snd (Exec q (Spec.storeAfter Exec (take i pre) (db.store DB s))) = None) ->
  Exec sql (Spec.storeAfter Exec pre (db.store DB s)) = (d', Some e) ->
  GenerateSchema m s = (db.mkSession DB d' (db.issued DB s ++ pre ++ [sql]), Some e).
Proof.
  intros Hm Hpre Hfail.
  rewrite GenerateSchema_statements, Hm, forEach_app.
  rewrite (forEach_exec_succeeds pre s Hpre).
  simpl. unfold db.exec. simpl. rewrite Hfail.
  by rewrite <- List.app_assoc.
Qed.

(** C1: the source [User:], [- id is text], [- friends is many User thru
    befriendedBy] parses to a model on which [GenerateSchema] issues, in
    this order, the CREATE TABLE IF NOT EXISTS statement of table [user]
    and the junction-table statement of [user_friends], with the columns
    [user_id] and [befriendedby_id] and PRIMARY KEY (user_id,
    befriendedby_id); on a store that accepts them, these two and no other
    are executed and [nil] is returned. *)
Theorem end_to_end_user_friends (s : session) :
  parser.ParseStateQL Sample.userSource = Returned (Sample.userModel, None)
  /\ GenerateSchema Sample.userModel s
       = forEach exec [Sample.userTableSQL; Sample.userFriendsSQL] s
  /\ db.GenerateSchema unicodeLower (list string) Sample.acceptAll Sample.userModel
         (db.mkSession (list string) [] [])
       = (db.mkSession (list string)
            [Sample.userTableSQL; Sample.userFriendsSQL]
            [Sample.userTableSQL; Sample.userFriendsSQL], None).
Proof.
  split; [|split].
  - vm_compute. reflexivity.
  - rewrite GenerateSchema_statements. f_equal.
  - vm_compute. reflexivity.
Qed.




End SchemaFacts.


(** A model and an executor on which the hypotheses of
    [GenerateSchema_aborts_on_first_failure] hold: the junction-table
    statement of the end-to-end example is rejected, after the table
    statement was executed. *)
Lemma GenerateSchema_aborts_on_first_failure_witness :
  db.GenerateSchema Sample.keepCase (list string) (Sample.rejecting Sample.userFriendsSQL)
    Sample.userModel (db.mkSession (list string) [] [])
  = (db.mkSession (list string) [Sample.userTableSQL]
       ([] ++ [Sample.userTableSQL] ++ [Sample.userFriendsSQL]), Some "rejected"%string).
Proof.
  apply (GenerateSchema_aborts_on_first_failure Sample.keepCase (list string)
           (Sample.rejecting Sample.userFriendsSQL) Sample.userModel
           (db.mkSession (list string) [] [])
           [Sample.userTableSQL] [] Sample.userFriendsSQL
           [Sample.userTableSQL] "rejected"%string).
  - vm_compute. reflexivity.
  - intros [|i] q Hq; simpl in Hq.
    + injection Hq as <-. vm_compute. reflexivity.
    + rewrite lookup_nil in Hq. discriminate Hq.
  - vm_compute. reflexivity.
Defined.

(** * Further properties of the code *)

(** ** [parseField] *)

Section FieldFacts.

Local Abbreviation open := "("%char.

(** Reduction steps for a hypothesis [parseField line = Returned f]: the
    sequencing of outcomes, then the slices and the record updates. *)
Ltac field_red H := cbv beta iota zeta in H.

Ltac field_cases H :=
  repeat match type of H with
         | context [slice ?s ?lo ?hi] =>
             let E := fresh "Hslice" in
             destruct (slice s lo hi) eqn:E; field_red H; [|discriminate H]
         | context [parser.parseActionArgs ?a] =>
             destruct (parser.parseActionArgs a); field_red H
         end.

Ltac field_proj :=
  cbv [Field.zero Field.set_Name Field.set_Type Field.set_IsMany Field.set_Through
       Field.set_IsAction Field.set_ActionType Field.set_ActionArgs
       Field.set_RequiredParams Field.set_FunctionName Field.set_FunctionArgs
       Field.Name Field.Type_ Field.IsMany Field.Through Field.IsAction
       Field.ActionType Field.ActionArgs Field.RequiredParams Field.FunctionName
       Field.FunctionArgs].

(** X1: The payload of a parsed field is that of one kind only: an action has
    no type, no through-field and no function; a many-relationship has
    nothing but its through-field; a field that is neither has no action
    verb, no action arguments and no through-field. *)
Theorem parseField_payload_by_kind (line : string) (f : Field.t) :
  parser.parseField line = Returned f ->
  (Field.IsAction f = true ->
     Field.IsMany f = false /\ Field.Type_ f = EmptyString /\ Field.Through f = EmptyString
     /\ Field.FunctionName f = EmptyString /\ Field.FunctionArgs f = [])
  /\ (Field.IsMany f = true ->
        Field.IsAction f = false /\ Field.Type_ f = EmptyString
        /\ Field.ActionType f = EmptyString /\ Field.ActionArgs f = None
        /\ Field.RequiredParams f = []
        /\ Field.FunctionName f = EmptyString /\ Field.FunctionArgs f = [])
  /\ (Field.IsAction f = false ->
        Field.ActionType f = EmptyString /\ Field.ActionArgs f = None
        /\ Field.RequiredParams f = [])
  /\ (Field.IsMany f = false -> Field.Through f = EmptyString).
Proof.
  unfold parser.parseField, mret, mbind, outcome_ret, outcome_bind. intros H.
  field_red H.
  destruct (negb _); field_red H.
  { injection H as <-. by repeat split. }
  destruct (HasPrefix _ "action"); field_red H.
  { destruct (length _ =? 2)%nat; field_red H.
    - destruct (Contains _ "("); field_red H; field_cases H; injection H as <-;
        field_proj; by repeat split.
    - injection H as <-. field_proj. by repeat split. }
  destruct (HasPrefix _ "many"); field_red H.
  { destruct (length _ =? 2)%nat; field_red H; injection H as <-;
      field_proj; by repeat split. }
  destruct (Contains _ " thru "); field_red H.
  - destruct (Contains _ "("); field_red H; field_cases H; injection H as <-;
      field_proj; by repeat split.
  - injection H as <-. field_proj. by repeat split.
Qed.

Lemma parseField_payload_by_kind_witness :
  (Field.IsAction Sample.friendsField = true ->
     Field.IsMany Sample.friendsField = false /\ Field.Type_ Sample.friendsField = EmptyString
     /\ Field.Through Sample.friendsField = EmptyString
     /\ Field.FunctionName Sample.friendsField = EmptyString
     /\ Field.FunctionArgs Sample.friendsField = [])
  /\ (Field.IsMany Sample.friendsField = true ->
        Field.IsAction Sample.friendsField = false /\ Field.Type_ Sample.friendsField = EmptyString
        /\ Field.ActionType Sample.friendsField = EmptyString
        /\ Field.ActionArgs Sample.friendsField = None
        /\ Field.RequiredParams Sample.friendsField = []
        /\ Field.FunctionName Sample.friendsField = EmptyString
        /\ Field.FunctionArgs Sample.friendsField = [])
  /\ (Field.IsAction Sample.friendsField = false ->
        Field.ActionType Sample.friendsField = EmptyString
        /\ Field.ActionArgs Sample.friendsField = None
        /\ Field.RequiredParams Sample.friendsField = [])
  /\ (Field.IsMany Sample.friendsField = false -> Field.Through Sample.friendsField = EmptyString).
Proof.
  apply (parseField_payload_by_kind "- friends is many User thru befriendedBy").
  vm_compute. reflexivity.
Defined.

Lemma hasByte_take_Index c s :
  Spec.hasByte c (takeBytes (Z.to_nat (Index s (String c EmptyString))) s) = false.
Proof.
  induction s as [|d s IH]; [reflexivity|].
  cbn [Index HasPrefix]. rewrite HasPrefix_empty, andb_true_r.
  destruct (Ascii.eqb d c) eqn:Hd; [reflexivity|].
  destruct (Index s (String c EmptyString) <? 0) eqn:Hi; [reflexivity|].
  apply Z.ltb_ge in Hi.
  replace (Z.to_nat (Index s (String c EmptyString) + 1))
    with (S (Z.to_nat (Index s (String c EmptyString)))) by lia.
  simpl. by rewrite Hd, IH.
Qed.

Lemma Contains_false_free c s :
  Contains s (String c EmptyString) = false -> Spec.hasByte c s = false.
Proof.
  unfold Contains. induction s as [|d s IH]; [reflexivity|].
  cbn [Index HasPrefix]. rewrite HasPrefix_empty, andb_true_r.
  destruct (Ascii.eqb d c) eqn:Hd; [discriminate|].
  destruct (Index s (String c EmptyString) <? 0) eqn:Hi.
  - intros _. simpl. rewrite Hd. apply IH. apply Z.leb_gt. by apply Z.ltb_lt.
  - apply Z.ltb_ge in Hi. intros H. apply Z.leb_gt in H. lia.
Qed.

Lemma slice_from_0 s hi x : slice s 0 hi = Returned x -> x = takeBytes (Z.to_nat hi) s.
Proof.
  unfold slice. destruct (_ && _); [|discriminate].
  intros [= <-]. by rewrite Z.sub_0_r.
Qed.

(** X2: The verb of a parsed action and the function name of a parsed computed
    field hold no opening parenthesis: the argument list is always cut
    off. *)
Theorem parseField_names_without_parenthesis (line : string) (f : Field.t) :
  parser.parseField line = Returned f ->
  Spec.hasByte open (Field.ActionType f) = false
  /\ Spec.hasByte open (Field.FunctionName f) = false.
Proof.
  unfold parser.parseField, mret, mbind, outcome_ret, outcome_bind. intros H.
  field_red H.
  destruct (negb _); field_red H.
  { injection H as <-. by split. }
  destruct (HasPrefix _ "action"); field_red H.
  { destruct (length _ =? 2)%nat; field_red H.
    - revert H. field_proj. intros H.
      destruct (Contains _ "(") eqn:Hc; field_red H.
      + field_cases H. injection H as <-. field_proj. split; [|done].
        match goal with Hs : slice _ 0 _ = Returned _ |- _ =>
          apply slice_from_0 in Hs as -> end.
        apply hasByte_take_Index.
      + injection H as <-. field_proj. split; [|done]. by apply Contains_false_free.
    - injection H as <-. by split. }
  destruct (HasPrefix _ "many"); field_red H.
  { destruct (length _ =? 2)%nat; field_red H; injection H as <-; by split. }
  destruct (Contains _ " thru "); field_red H.
  - destruct (Contains _ "("); field_red H.
    + field_cases H. injection H as <-. field_proj. split; [done|].
      match goal with Hs : slice _ 0 _ = Returned _ |- _ =>
        apply slice_from_0 in Hs as -> end.
      apply hasByte_take_Index.
    + injection H as <-. by split.
  - injection H as <-. by split.
Qed.

Lemma parseField_names_without_parenthesis_witness :
  Spec.hasByte open
    (Field.ActionType
       (Field.set_RequiredParams ["key"]
          (Field.set_ActionArgs (Some (<["arg1" := "attachments"]> ∅))
             (Field.set_ActionType "drop"
                (Field.set_IsAction true (Field.set_Name "removeFile" Field.zero))))))
  = false
  /\ Spec.hasByte open
       (Field.FunctionName
          (Field.set_RequiredParams ["key"]
             (Field.set_ActionArgs (Some (<["arg1" := "attachments"]> ∅))
                (Field.set_ActionType "drop"
                   (Field.set_IsAction true (Field.set_Name "removeFile" Field.zero))))))
     = false.
Proof.
  apply (parseField_names_without_parenthesis
           "- removeFile is action thru drop(attachments :key)").
  vm_compute. reflexivity.
Defined.

End FieldFacts.

(** ** [parseActionArgs] and [parseFunctionArgs] *)

Section ArgumentFacts.

Local Abbreviation colon := ":"%string.

Lemma actionArgStep_snd i raw m r :
  Spec.spaceFree raw ->
  snd (parser.actionArgStep i raw (m, r)) =
  r ++ (if HasPrefix raw colon then [TrimPrefix raw colon] else []).
Proof.
  intros Hraw. unfold parser.actionArgStep. rewrite (TrimSpace_spaceFree _ Hraw).
  destruct (HasPrefix raw colon); [reflexivity|]. rewrite List.app_nil_r.
  destruct (Contains raw "=").
  - by destruct (length (Split raw "=") =? 2)%nat.
  - by destruct i as [|[|i]].
Qed.

Lemma actionArgLoop_snd parts i m r :
  Forall Spec.spaceFree parts ->
  snd (parser.actionArgLoop i parts (m, r)) =
  r ++ map (fun part => TrimPrefix part colon)
           (List.filter (fun part => HasPrefix part colon) parts).
Proof.
  intros Hparts. revert i m r.
  induction Hparts as [|raw parts Hraw _ IH]; intros i m r;
    cbn [parser.actionArgLoop List.filter].
  - by rewrite List.app_nil_r.
  - pose proof (actionArgStep_snd i raw m r Hraw) as Hstep.
    destruct (parser.actionArgStep i raw (m, r)) as [m' r']. simpl in Hstep.
    rewrite IH, Hstep. destruct (HasPrefix raw colon); simpl.
    + by rewrite <- List.app_assoc.
    + by rewrite List.app_nil_r.
Qed.

(** X3: The required parameters are the tokens that begin with a colon, the
    colon removed, in the order of the argument text; no other token
    contributes. *)
Theorem parseActionArgs_required_params (args : string) :
  snd (parser.parseActionArgs args) =
  map (fun part => TrimPrefix part colon)
      (List.filter (fun part => HasPrefix part colon) (GoStrings.Fields args)).
Proof.
  unfold parser.parseActionArgs.
  by rewrite actionArgLoop_snd by apply Fields_spaceFree.
Qed.

Lemma fold_addNamed_origin parts m k v :
  fold_left Spec.addNamed parts m !! k = Some v ->
  m !! k = Some v \/ exists part, In part parts /\ Spec.namedPair part = Some (k, v).
Proof.
  revert m. induction parts as [|part parts IH]; intros m; simpl; [by left|].
  intros H. destruct (IH _ H) as [Hm | (p & Hin & Hp)].
  - unfold Spec.addNamed in Hm.
    destruct (Spec.namedPair part) as [[k' v']|] eqn:Hpart; [|by left].
    apply lookup_insert_Some in Hm as [[<- <-] | [_ Hm]]; [|by left].
    right. exists part. split; [by left | done].
  - right. exists p. split; [by right | done].
Qed.

(** X4: Every binding of the argument map has one of three origins: the first
    token, positional, under [arg1]; the second token, positional, under
    [arg2]; or a named argument [key=value] of the text.  A required
    parameter or a later positional token never enters the map. *)
Theorem parseActionArgs_binding_origin (args k v : string) :
  fst (parser.parseActionArgs args) !! k = Some v ->
  (k = "arg1" /\ Spec.positionalAt (GoStrings.Fields args) 0 = Some v)
  \/ (k = "arg2" /\ Spec.positionalAt (GoStrings.Fields args) 1 = Some v)
  \/ exists part, In part (GoStrings.Fields args) /\ Spec.namedPair part = Some (k, v).
Proof.
  unfold parser.parseActionArgs, Spec.positionalAt.
  pose proof (Fields_spaceFree args) as Hfree.
  destruct Hfree as [|p0 parts Hp0 Hfree].
  { cbn [parser.actionArgLoop fst]. by rewrite lookup_empty. }
  cbn [parser.actionArgLoop lookup list_lookup].
  pose proof (actionArgStep_fst 0 p0 ∅ [] Hp0) as H0.
  destruct (parser.actionArgStep 0 p0 (∅, [])) as [m0 r0]. simpl in H0. subst m0.
  assert (Hm0 : forall k v,
             (if Spec.isPositional p0 then <["arg1" := p0]> ∅ else Spec.addNamed ∅ p0)
               !! k = Some v ->
             (k = "arg1" /\ (if Spec.isPositional p0 then Some p0 else None) = Some v)
             \/ Spec.namedPair p0 = Some (k, v)).
  { intros k' v'. destruct (Spec.isPositional p0).
    - intros [[<- <-] | [_ H]]%lookup_insert_Some; [by left | by rewrite lookup_empty in H].
    - unfold Spec.addNamed. destruct (Spec.namedPair p0) as [[k0 v0]|].
      + intros [[<- <-] | [_ H]]%lookup_insert_Some; [by right | by rewrite lookup_empty in H].
      + by rewrite lookup_empty. }
  destruct Hfree as [|p1 parts Hp1 Hfree].
  { cbn [parser.actionArgLoop fst]. intros H.
    destruct (Hm0 _ _ H) as [? | Hn]; [by left|].
    right. right. exists p0. split; [by left | done]. }
  cbn [parser.actionArgLoop lookup list_lookup].
  match goal with |- context [parser.actionArgStep 1 p1 (?m, r0)] =>
    pose proof (actionArgStep_fst 1 p1 m r0 Hp1) as H1;
    destruct (parser.actionArgStep 1 p1 (m, r0)) as [m1 r1]
  end.
  simpl in H1. subst m1. rewrite actionArgLoop_from_2 by (lia || done).
  intros H. apply fold_addNamed_origin in H as [H | (p & Hin & Hp)].
  2:{ right. right. exists p. split; [by do 2 right | done]. }
  destruct (Spec.isPositional p1).
  - apply lookup_insert_Some in H as [[<- <-] | [_ H]]; [right; by left|].
    destruct (Hm0 _ _ H) as [? | Hn]; [by left|].
    right. right. exists p0. split; [by left | done].
  - unfold Spec.addNamed in H. destruct (Spec.namedPair p1) as [[k1 v1]|] eqn:Hn1.
    + apply lookup_insert_Some in H as [[<- <-] | [_ H]].
      * right. right. exists p1. split; [right; by left | done].
      * destruct (Hm0 _ _ H) as [? | Hn]; [by left|].
        right. right. exists p0. split; [by left | done].
    + destruct (Hm0 _ _ H) as [? | Hn]; [by left|].
      right. right. exists p0. split; [by left | done].
Qed.

Lemma parseActionArgs_binding_origin_witness :
  ("arg2" = "arg1" /\ Spec.positionalAt (GoStrings.Fields ":key attachments") 0
                      = Some "attachments")
  \/ ("arg2" = "arg2" /\ Spec.positionalAt (GoStrings.Fields ":key attachments") 1
                         = Some "attachments")
  \/ exists part, In part (GoStrings.Fields ":key attachments")
                  /\ Spec.namedPair part = Some ("arg2"%string, "attachments"%string).
Proof.
  apply (parseActionArgs_binding_origin ":key attachments" "arg2" "attachments").
  vm_compute. reflexivity.
Defined.

Lemma dropBytes_app_le k v w :
  (k <= String.length v)%nat -> dropBytes k (v +:+ w) = dropBytes k v +:+ w.
Proof.
  revert v. induction k as [|k IH]; intros [|d v] Hk; simpl in *; try reflexivity; try lia.
  apply IH. lia.
Qed.

Lemma dropBytes_all k v : (String.length v <= k)%nat -> dropBytes k v = EmptyString.
Proof.
  revert v. induction k as [|k IH]; intros [|d v] Hk; simpl in *; try reflexivity; try lia.
  apply IH. lia.
Qed.

Lemma dropBytes_add j k s : dropBytes (j + k) s = dropBytes k (dropBytes j s).
Proof.
  revert s. induction j as [|j IH]; intros [|d s]; simpl; try reflexivity.
  - by rewrite dropBytes_empty.
  - apply IH.
Qed.

(** A stretch of a string without white space has no white space. *)
Lemma spaceFree_infix u v w : Spec.spaceFree (u +:+ v +:+ w) -> Spec.spaceFree v.
Proof.
  intros H k. destruct (decide (k <= String.length v)%nat) as [Hk|Hk].
  - apply (spaceWidth_prefix _ w). rewrite <- dropBytes_app_le by done.
    specialize (H (String.length u + k)%nat).
    by rewrite dropBytes_add, drop_app in H.
  - by rewrite dropBytes_all by lia.
Qed.

Lemma spaceFree_unquote part : Spec.spaceFree part -> Spec.spaceFree (Spec.unquote part).
Proof.
  intros H. unfold Spec.unquote. destruct (Spec.isQuoted part); [|done].
  destruct (Trim_quotes part) as (_ & _ & a & b & Hpart).
  rewrite Hpart in H. by apply spaceFree_infix in H.
Qed.

Lemma spaceFree_no_space t : Spec.spaceFree t -> Spec.hasByte " " t = false.
Proof.
  induction t as [|d t IH]; intros H; [reflexivity|].
  simpl. rewrite IH by (intros k; apply (H (S k))).
  specialize (H 0%nat). cbn [dropBytes] in H.
  destruct (Ascii.eqb d " ") eqn:Hd; [|reflexivity].
  apply Ascii.eqb_eq in Hd as ->. discriminate H.
Qed.

(** X5: [parseFunctionArgs] returns one entry per token of the argument text,
    and no entry holds white space: an argument written between quotes with
    a space inside is never put together again. *)
Theorem parseFunctionArgs_entries (args : string) :
  length (parser.parseFunctionArgs args) = length (GoStrings.Fields args)
  /\ Forall Spec.spaceFree (parser.parseFunctionArgs args)
  /\ Forall (fun entry => Spec.hasByte " " entry = false) (parser.parseFunctionArgs args).
Proof.
  unfold parser.parseFunctionArgs.
  rewrite fold_functionArgStep by apply Fields_spaceFree. simpl.
  assert (Hfree : Forall Spec.spaceFree (map Spec.unquote (GoStrings.Fields args))).
  { apply Forall_map. eapply Forall_impl; [apply Fields_spaceFree|].
    apply spaceFree_unquote. }
  split; [by rewrite length_map|]. split; [done|].
  eapply Forall_impl; [exact Hfree | apply spaceFree_no_space].
Qed.

End ArgumentFacts.

(** ** [ParseStateQL] *)

Section SourceFacts.

Local Abbreviation Entities st := (StateQL.Entities (parser.stateql st)).

Lemma scannable_scans l :
  Notions.scannable l = true -> Spec.hasByte LF l = false /\ bufio.fits l = true.
Proof.
  unfold Notions.scannable. intros [H1 H2]%andb_prop. by apply negb_true_iff in H1.
Qed.

Lemma scannable_lines ls :
  Forall (fun l => Notions.scannable l = true) ls ->
  Forall (fun l => Spec.hasByte LF l = false /\ bufio.fits l = true) ls.
Proof. intros H. eapply Forall_impl; [exact H | apply scannable_scans]. Qed.

Lemma ParseStateQL_unlines ls :
  Forall (fun l => Notions.scannable l = true) ls ->
  parser.ParseStateQL (Spec.unlines ls) =
  st ← parser.parseLines (map bufio.dropCR ls) parser.initialState;
  mret (parser.stateql st, None).
Proof.
  intros H. unfold parser.ParseStateQL.
  by rewrite parseLines_scanLines by by apply scannable_lines.
Qed.

Lemma parseLine_no_entity text st :
  Spec.isHeader text = false -> parser.currentEntity st = None ->
  parser.parseLine text st = Returned st.
Proof.
  unfold Spec.isHeader, Spec.isBlank, Spec.isFieldLine, parser.parseLine.
  intros Hh Hcur. destruct (String.eqb (TrimSpace text) EmptyString); [reflexivity|].
  simpl in Hh. apply negb_false_iff in Hh. by rewrite Hh, Hcur.
Qed.

(** X6: A source text without header line parses to the empty model: its field
    lines are dropped unread, so that even a line on which [parseField]
    would panic does no harm. *)
Theorem ParseStateQL_without_header (content : string) :
  Forall (fun text => Spec.isHeader text = false) (bufio.scanLines content) ->
  parser.ParseStateQL content = Returned (StateQL.mk [], None).
Proof.
  intros H. unfold parser.ParseStateQL.
  assert (Hrun : parser.parseLines (bufio.scanLines content) parser.initialState
                 = Returned parser.initialState).
  { induction H as [|text texts Ht _ IH]; [reflexivity|].
    cbn [parser.parseLines]. by rewrite parseLine_no_entity. }
  by rewrite Hrun.
Qed.

Lemma ParseStateQL_without_header_witness :
  parser.ParseStateQL
    (Spec.unlines ["- x is action thru put(files"; EmptyString; "- y is text"])
  = Returned (StateQL.mk [], None).
Proof.
  apply (ParseStateQL_without_header
           (Spec.unlines ["- x is action thru put(files"; EmptyString; "- y is text"])).
  change (bufio.scanLines _) with ["- x is action thru put(files"; EmptyString; "- y is text"].
  repeat apply Forall_cons_2; try apply Forall_nil_2; reflexivity.
Defined.

Lemma parseLine_TrimSpace t1 t2 st :
  TrimSpace t1 = TrimSpace t2 -> parser.parseLine t1 st = parser.parseLine t2 st.
Proof. unfold parser.parseLine. by intros ->. Qed.

Lemma parseLines_TrimSpace l1 l2 st :
  Forall2 (fun t1 t2 => TrimSpace t1 = TrimSpace t2) l1 l2 ->
  parser.parseLines l1 st = parser.parseLines l2 st.
Proof.
  intros H. revert st. induction H as [|t1 t2 l1 l2 Ht _ IH]; intros st; [reflexivity|].
  cbn [parser.parseLines]. rewrite (parseLine_TrimSpace _ _ _ Ht).
  destruct (parser.parseLine t2 st); outcome_simpl; [apply IH | reflexivity].
Qed.

(** X7: White space around a line never matters: two source texts whose lines
    agree once trimmed (indentation, trailing blanks, carriage returns
    before the line feeds) have the same parse. *)
Theorem ParseStateQL_ignores_surrounding_space (ls ls' : list string) :
  Forall (fun l => Notions.scannable l = true) ls ->
  Forall (fun l => Notions.scannable l = true) ls' ->
  Forall2 (fun l l' => TrimSpace l = TrimSpace l') ls ls' ->
  parser.ParseStateQL (Spec.unlines ls) = parser.ParseStateQL (Spec.unlines ls').
Proof.
  intros Hls Hls' Hsame. rewrite !ParseStateQL_unlines by done.
  rewrite (parseLines_TrimSpace (map bufio.dropCR ls) (map bufio.dropCR ls')); [done|].
  apply Forall2_fmap. eapply Forall2_impl; [exact Hsame|].
  intros l l' Hl. simpl. by rewrite !TrimSpace_dropCR.
Qed.

Lemma ParseStateQL_ignores_surrounding_space_witness :
  parser.ParseStateQL (Spec.unlines ["User:"; "- id is text"])
  = parser.ParseStateQL
      (Spec.unlines [String TAB "User: " +:+ String CR EmptyString;
                     "    - id is text" +:+ String CR EmptyString]).
Proof.
  apply (ParseStateQL_ignores_surrounding_space
           ["User:"; "- id is text"]
           [String TAB "User: " +:+ String CR EmptyString;
            "    - id is text" +:+ String CR EmptyString]).
  - repeat apply Forall_cons_2; try apply Forall_nil_2; reflexivity.
  - repeat apply Forall_cons_2; try apply Forall_nil_2; reflexivity.
  - repeat apply Forall2_cons_2; try apply Forall2_nil_2; reflexivity.
Defined.

Lemma parseLines_skip_blank ls st :
  parser.parseLines (map bufio.dropCR (List.filter (fun l => negb (Spec.isBlank l)) ls)) st
  = parser.parseLines (map bufio.dropCR ls) st.
Proof.
  revert st. induction ls as [|l ls IH]; intros st; [reflexivity|].
  cbn [List.filter map]. destruct (Spec.isBlank l) eqn:Hb; simpl negb; cbv iota.
  - cbn [parser.parseLines]. rewrite (parseLine_blank _ _ Hb). outcome_simpl. apply IH.
  - cbn [map parser.parseLines].
    destruct (parser.parseLine _ st); outcome_simpl; [apply IH | reflexivity].
Qed.

Lemma scannable_filter (p : string -> bool) ls :
  Forall (fun l => Notions.scannable l = true) ls ->
  Forall (fun l => Notions.scannable l = true) (List.filter p ls).
Proof.
  intros H. induction H as [|l ls Hl _ IH]; simpl; [constructor|].
  destruct (p l); [by constructor | done].
Qed.

(** X8: Blank lines never matter: a source text and the same text without its
    blank lines have the same parse. *)
Theorem ParseStateQL_ignores_blank_lines (ls : list string) :
  Forall (fun l => Notions.scannable l = true) ls ->
  parser.ParseStateQL (Spec.unlines ls)
  = parser.ParseStateQL (Spec.unlines (List.filter (fun l => negb (Spec.isBlank l)) ls)).
Proof.
  intros Hls. rewrite !ParseStateQL_unlines by (done || by apply scannable_filter).
  by rewrite parseLines_skip_blank.
Qed.

Lemma ParseStateQL_ignores_blank_lines_witness :
  parser.ParseStateQL
    (Spec.unlines ["User:"; EmptyString; "- id is text"; "   "; "- name is text"])
  = parser.ParseStateQL
      (Spec.unlines
         (List.filter (fun l => negb (Spec.isBlank l))
            ["User:"; EmptyString; "- id is text"; "   "; "- name is text"])).
Proof.
  apply (ParseStateQL_ignores_blank_lines
           ["User:"; EmptyString; "- id is text"; "   "; "- name is text"]).
  repeat apply Forall_cons_2; try apply Forall_nil_2; reflexivity.
Defined.

(** X9: Lines added at the end of a source text never change what was parsed
    before them, the lines being lines that the scanner hands over whole:
    every entity of the shorter text is in the model of the longer one, at
    the same place, with the same name and with its fields first. *)
Theorem ParseStateQL_extends (ls more : list string) (m m' : StateQL.t)
    (i : nat) (e : Entity.t) :
  Forall (fun l => Notions.scannable l = true) (ls ++ more) ->
  parser.ParseStateQL (Spec.unlines ls) = Returned (m, None) ->
  parser.ParseStateQL (Spec.unlines (ls ++ more)) = Returned (m', None) ->
  StateQL.Entities m !! i = Some e ->
  exists later,
    StateQL.Entities m' !! i = Some (Entity.mk (Entity.Name e) (Entity.Fields e ++ later)).
Proof.
  intros Hall Hm Hm' He.
  pose proof Hall as [Hls _]%Forall_app.
  rewrite ParseStateQL_unlines in Hm, Hm' by done.
  rewrite map_app, parseLines_app in Hm'.
  destruct (parser.parseLines (map bufio.dropCR ls) parser.initialState) as [st|];
    outcome_simpl; [|discriminate].
  injection Hm as <-.
  destruct (parser.parseLines (map bufio.dropCR more) st) as [st'|] eqn:Hrun;
    outcome_simpl; [|discriminate].
  injection Hm' as <-.
  by apply (parseLines_grows _ _ _ _ _ Hrun).
Qed.

Lemma ParseStateQL_extends_witness :
  exists later,
    StateQL.Entities
      (StateQL.mk [Entity.mk "User" [Sample.idField; Sample.friendsField];
                   Entity.mk "Task" []]) !! 0%nat
    = Some (Entity.mk (Entity.Name (Entity.mk "User" [Sample.idField]))
              (Entity.Fields (Entity.mk "User" [Sample.idField]) ++ later)).
Proof.
  apply (ParseStateQL_extends
           ["User:"; "- id is text"]
           ["- friends is many User thru befriendedBy"; "Task:"]
           (StateQL.mk [Entity.mk "User" [Sample.idField]])
           (StateQL.mk [Entity.mk "User" [Sample.idField; Sample.friendsField];
                        Entity.mk "Task" []])
           0%nat (Entity.mk "User" [Sample.idField])).
  - repeat apply Forall_cons_2; try apply Forall_nil_2; reflexivity.
  - vm_compute. reflexivity.
  - vm_compute. reflexivity.
  - reflexivity.
Defined.

End SourceFacts.

(** ** Lines too long for the scanner *)

Section LongLineFacts.

Lemma fits_nonempty l : bufio.fits l = false -> l <> EmptyString.
Proof. by intros H ->. Qed.

Lemma parseLines_scan_cut before long after st :
  Forall (fun l => Notions.scannable l = true) before ->
  Spec.hasByte LF long = false -> bufio.fits long = false ->
  parser.parseLines (bufio.scanLines (Spec.unlines (before ++ long :: after))) st
  = parser.parseLines (map bufio.dropCR before) st.
Proof.
  unfold Spec.unlines, bufio.scanLines. intros Hbefore Hlf Hfit. revert st.
  induction Hbefore as [|l ls Hl _ IH]; intros st.
  - cbn [app map]. destruct after as [|a after].
    + simpl Join. rewrite rawLines_last by (done || by apply fits_nonempty).
      simpl. by rewrite Hfit.
    + change (Join (long :: a :: after) (String LF EmptyString))
        with (long +:+ String LF EmptyString +:+ Join (a :: after) (String LF EmptyString)).
      change (String LF EmptyString +:+ ?r) with (String LF r).
      rewrite rawLines_line by done. simpl bufio.untilTooLong. by rewrite Hfit.
  - apply scannable_scans in Hl as [Hl1 Hl2].
    destruct (ls ++ long :: after) as [|l' ls'] eqn:Hrest.
    { by destruct ls. }
    change (Join ((l :: ls) ++ long :: after) (String LF EmptyString))
      with (Join (l :: (ls ++ long :: after)) (String LF EmptyString)).
    rewrite Hrest.
    change (Join (l :: l' :: ls') (String LF EmptyString))
      with (l +:+ String LF EmptyString +:+ Join (l' :: ls') (String LF EmptyString)).
    change (String LF EmptyString +:+ ?r) with (String LF r).
    rewrite rawLines_line by done. simpl bufio.untilTooLong. rewrite Hl2.
    cbn [map parser.parseLines].
    destruct (parser.parseLine _ st); outcome_simpl; [apply IH | reflexivity].
Qed.

(** X10: A line of [bufio.MaxScanTokenSize] bytes or more ends the parse without
    any error: the model returned is the one of the lines before it, and
    whatever follows the long line is ignored. *)
Theorem ParseStateQL_stops_at_long_line (before after : list string) (long : string) :
  Forall (fun l => Notions.scannable l = true) before ->
  Spec.hasByte LF long = false ->
  (bufio.MaxScanTokenSize <= N.of_nat (String.length long))%N ->
  parser.ParseStateQL (Spec.unlines (before ++ long :: after))
  = parser.ParseStateQL (Spec.unlines before).
Proof.
  intros Hbefore Hlf Hlong.
  rewrite (ParseStateQL_unlines before) by done.
  unfold parser.ParseStateQL. rewrite parseLines_scan_cut; [done..|].
  unfold bufio.fits. by apply N.ltb_ge.
Qed.

Lemma ParseStateQL_stops_at_long_line_witness :
  parser.ParseStateQL
    (Spec.unlines (["User:"; "- id is text"]
                   ++ ("- " +:+ Notions.filler (N.to_nat 65536) "x") :: ["- name is text"; "Task:"]))
  = parser.ParseStateQL (Spec.unlines ["User:"; "- id is text"]).
Proof.
  apply (ParseStateQL_stops_at_long_line
           ["User:"; "- id is text"] ["- name is text"; "Task:"]
           ("- " +:+ Notions.filler (N.to_nat 65536) "x")).
  - repeat apply Forall_cons_2; try apply Forall_nil_2; reflexivity.
  - vm_compute. reflexivity.
  - vm_compute. discriminate.
Defined.

End LongLineFacts.

(** ** The Type Mapper *)

Section TypeMapperFacts.

Variable unicodeLower : string -> string.

Local Abbreviation mapTypeToPostgres := (db.mapTypeToPostgres unicodeLower).







End TypeMapperFacts.


(** ** [GenerateSchema] and the handler *)

Section CompilerFacts.

Variable unicodeLower : string -> string.
Variable DB : Type.
Variable Exec : string -> DB -> DB * option error.

Local Abbreviation session := (db.session DB).
Local Abbreviation exec := (db.exec DB Exec).
Local Abbreviation forEach := (db.forEach DB).
Local Abbreviation createTableSQL := (db.createTableSQL unicodeLower).
Local Abbreviation junctionTableSQL := (db.junctionTableSQL unicodeLower).
Local Abbreviation GenerateSchema := (db.GenerateSchema unicodeLower DB Exec).
Local Abbreviation statements := (Spec.statements unicodeLower).
Local Abbreviation postSchema := (main.postSchema unicodeLower DB Exec).

Lemma statements_code m :
  statements m =
  map createTableSQL (StateQL.Entities m) ++
  flat_map (fun e => map (junctionTableSQL e) (List.filter Field.IsMany (Entity.Fields e)))
           (StateQL.Entities m).
Proof.
  unfold Spec.statements. f_equal.
  apply map_ext. intros e. symmetry. apply createTableSQL_columns.
Qed.

(** X12: When the store accepts every statement, [GenerateSchema] returns [nil]
    after issuing, in this order, the table statement of every entity and
    then the junction-table statement of every many-relationship field,
    entity by entity. *)
Theorem GenerateSchema_all_accepted (m : StateQL.t) (s : session) :
  (forall i q, statements m !! i = Some q ->
     snd (Exec q (Spec.storeAfter Exec (take i (statements m)) (db.store DB s))) = None) ->
  GenerateSchema m s =
  (db.mkSession DB
     (Spec.storeAfter Exec (statements m) (db.store DB s))
     (db.issued DB s ++
      map createTableSQL (StateQL.Entities m) ++
      flat_map (fun e => map (junctionTableSQL e) (List.filter Field.IsMany (Entity.Fields e)))
               (StateQL.Entities m)),
   None).
Proof.
  intros Hok. rewrite GenerateSchema_statements, (forEach_exec_succeeds _ _ _ _ Hok).
  by rewrite <- statements_code.
Qed.

Lemma exec_pair (q : string) (s : session) :
  exec q s =
  (db.mkSession DB (fst (Exec q (db.store DB s))) (db.issued DB s ++ [q]),
   snd (Exec q (db.store DB s))).
Proof. unfold db.exec. by destruct (Exec q (db.store DB s)). Qed.

Lemma forEach_exec_prefix (stmts : list string) (s : session) :
  exists done rest,
    stmts = done ++ rest
    /\ db.issued DB (fst (forEach exec stmts s)) = db.issued DB s ++ done
    /\ db.store DB (fst (forEach exec stmts s)) = Spec.storeAfter Exec done (db.store DB s)
    /\ match snd (forEach exec stmts s) with
       | None => rest = []
       | Some e =>
           exists pre q,
             done = pre ++ [q]
             /\ snd (Exec q (Spec.storeAfter Exec pre (db.store DB s))) = Some e
       end.
Proof.
  revert s. induction stmts as [|q stmts IH]; intros [d log].
  - exists [], []. simpl. by rewrite List.app_nil_r.
  - cbn [db.forEach]. rewrite (exec_pair q). cbn [db.store db.issued].
    destruct (Exec q d) as [d1 [e|]] eqn:HE; cbn [fst snd].
    + exists [q], stmts. cbn [fst snd db.issued db.store Spec.storeAfter fold_left].
      rewrite HE. repeat split. exists [], q. split; [reflexivity|]. simpl. by rewrite HE.
    + destruct (IH (db.mkSession DB d1 (log ++ [q]))) as (done & rest & Hs & Hi & Hst & He).
      exists (q :: done), rest. cbn [db.store db.issued] in *.
      split; [by rewrite Hs|]. split; [by rewrite Hi, <- List.app_assoc|].
      split; [rewrite Hst; simpl; by rewrite HE|].
      destruct (snd (forEach exec stmts _)) as [e|]; [|done].
      destruct He as (pre & q' & Hd & Hq). exists (q :: pre), q'.
      split; [by rewrite Hd|]. simpl. by rewrite HE.
Qed.

(** X13: Whatever the store does, the statements that [GenerateSchema] issues
    are a first stretch of the model's sequence, in order and each once;
    the store is the one they left; [nil] is returned only after the whole
    sequence, and an error is the one of the statement issued last. *)
Theorem GenerateSchema_issues_a_prefix (m : StateQL.t) (s : session) :
  exists done rest,
    statements m = done ++ rest
    /\ db.issued DB (fst (GenerateSchema m s)) = db.issued DB s ++ done
    /\ db.store DB (fst (GenerateSchema m s)) = Spec.storeAfter Exec done (db.store DB s)
    /\ match snd (GenerateSchema m s) with
       | None => rest = []
       | Some e =>
           exists pre q,
             done = pre ++ [q]
             /\ snd (Exec q (Spec.storeAfter Exec pre (db.store DB s))) = Some e
       end.
Proof. rewrite GenerateSchema_statements. apply forEach_exec_prefix. Qed.

Lemma filter_filter_implied {A} (p q : A -> bool) (l : list A) :
  (forall x, p x = true -> q x = true) ->
  List.filter p (List.filter q l) = List.filter p l.
Proof.
  intros Hpq. induction l as [|x l IH]; [reflexivity|]. simpl.
  destruct (q x) eqn:Hq; simpl.
  - by rewrite IH.
  - destruct (p x) eqn:Hp; [|exact IH]. rewrite (Hpq x Hp) in Hq. discriminate.
Qed.

Lemma statements_withoutActions m :
  statements (Notions.withoutActions m) = statements m.
Proof.
  unfold Spec.statements, Notions.withoutActions. cbn [StateQL.Entities].
  rewrite map_map, flat_map_concat_map, map_map, <- flat_map_concat_map. f_equal.
  - apply map_ext. intros e.
    unfold Spec.tableStatement, Spec.tableColumns. cbn [Entity.Name Entity.Fields].
    rewrite filter_filter_implied; [reflexivity|].
    intros f. rewrite materialized_flags. unfold Notions.isPlainAction.
    by destruct (Field.IsMany f), (Field.IsAction f).
  - apply flat_map_ext. intros e.
    unfold Spec.junctionStatements. cbn [Entity.Fields].
    rewrite filter_filter_implied; [reflexivity|].
    intros f. unfold Notions.isPlainAction.
    by destruct (Field.IsMany f), (Field.IsAction f).
Qed.

(** X14: Action fields leave no trace in the schema: [GenerateSchema] does on a
    model what it does on the model without its action fields. *)
Theorem GenerateSchema_ignores_actions (m : StateQL.t) (s : session) :
  GenerateSchema (Notions.withoutActions m) s = GenerateSchema m s.
Proof. by rewrite !GenerateSchema_statements, statements_withoutActions. Qed.

(** X15: What the handler function does with every request.  A body that does
    not bind is answered 400, the store being left as it is.  On a body that
    binds, either [ParseStateQL] panics, and the handler panics with it,
    having given no answer and executed no statement (what is sent to the
    client then is written by the recovery of the router, outside the
    handler); or [ParseStateQL] returns a model and no error, and the
    handler answers 200 when [GenerateSchema] returns [nil], and 500 with
    the store's error after a fixed prefix when it returns an error.  So
    the handler panics exactly when [ParseStateQL] does, and an answer of the
    handler has status 400 only when the body does not bind: the answer for
    a parse failure is never given. *)
Theorem postSchema_answers (bound : option string) (s : session) :
  match bound with
  | None => postSchema bound s = Returned (s, main.JSON 400 "error" "Invalid request body")
  | Some content =>
      (parser.ParseStateQL content = Panicked /\ postSchema bound s = Panicked)
      \/ exists m,
           parser.ParseStateQL content = Returned (m, None)
           /\ postSchema bound s
              = Returned (fst (GenerateSchema m s),
                          match snd (GenerateSchema m s) with
                          | None => main.JSON 200 "message" "Schema generated successfully"
                          | Some e => main.JSON 500 "error" ("Failed to generate schema: " +:+ e)
                          end)
  end
  /\ (postSchema bound s = Panicked
      <-> exists content, bound = Some content /\ parser.ParseStateQL content = Panicked)
  /\ (forall s' r,
        postSchema bound s = Returned (s', r) ->
        (main.status r = 400 <-> bound = None)
        /\ match bound with
           | None => s' = s /\ r = main.JSON 400 "error" "Invalid request body"
           | Some content =>
               exists m,
                 parser.ParseStateQL content = Returned (m, None)
                 /\ s' = fst (GenerateSchema m s)
                 /\ r = match snd (GenerateSchema m s) with
                        | None => main.JSON 200 "message" "Schema generated successfully"
                        | Some e => main.JSON 500 "error" ("Failed to generate schema: " +:+ e)
                        end
           end).
Proof.
  unfold main.postSchema. destruct bound as [content|]; outcome_simpl.
  2:{ split; [reflexivity|]. split.
      - split; [discriminate | by intros (content & [=] & _)].
      - intros s' r [= <- <-]. by repeat split. }
  destruct (parser.ParseStateQL content) as [[m err]|] eqn:Hparse; outcome_simpl.
  2:{ split; [by left|]. split; [|discriminate].
      split; [by exists content | done]. }
  pose proof (ParseStateQL_error_nil _ _ _ Hparse) as ->.
  destruct (GenerateSchema m s) as [s1 [e|]] eqn:HG; outcome_simpl;
    (split; [right; exists m; by rewrite HG|]); (split; [split; [discriminate|]|]).
  1,3: by intros (c & [= <-] & Hc); rewrite Hparse in Hc.
  all: intros s' r [= <- <-];
    (split; [split; intros H; discriminate H | exists m; by rewrite HG]).
Qed.

(** X16: A source text without opening parenthesis, posted to a store that
    accepts every statement, is answered 200, and the statements of the
    parsed model have all been issued. *)
Theorem postSchema_succeeds (content : string) (s : session) :
  Spec.hasByte "(" content = false ->
  (forall q d, snd (Exec q d) = None) ->
  exists m s',
    parser.ParseStateQL content = Returned (m, None)
    /\ postSchema (Some content) s
       = Returned (s', main.JSON 200 "message" "Schema generated successfully")
    /\ db.issued DB s' = db.issued DB s ++ statements m.
Proof.
  intros Hfree Hok. destruct (ParseStateQL_returns _ Hfree) as [m Hm].
  eexists m, _. split; [exact Hm|].
  unfold main.postSchema. rewrite Hm. outcome_simpl.
  rewrite GenerateSchema_statements, forEach_exec_succeeds by (intros; apply Hok).
  by split.
Qed.

End CompilerFacts.

Lemma GenerateSchema_all_accepted_witness :
  db.GenerateSchema Sample.keepCase (list string) Sample.acceptAll Sample.userModel
    (db.mkSession (list string) [] [])
  = (db.mkSession (list string)
       (Spec.storeAfter Sample.acceptAll (Spec.statements Sample.keepCase Sample.userModel)
          (db.store (list string) (db.mkSession (list string) [] [])))
       (db.issued (list string) (db.mkSession (list string) [] []) ++
        map (db.createTableSQL Sample.keepCase) (StateQL.Entities Sample.userModel) ++
        flat_map (fun e => map (db.junctionTableSQL Sample.keepCase e)
                             (List.filter Field.IsMany (Entity.Fields e)))
                 (StateQL.Entities Sample.userModel)),
     None).
Proof.
  apply (GenerateSchema_all_accepted Sample.keepCase (list string) Sample.acceptAll
           Sample.userModel (db.mkSession (list string) [] [])).
  intros i q _. reflexivity.
Defined.

(** The handler on the end-to-end example and an accepting store, and on
    a source with an unclosed parenthesis. *)
Lemma postSchema_answers_witness :
  ((main.status (main.JSON 200 "message" "Schema generated successfully") = 400
    <-> Some Sample.userSource = None)
   /\ exists m,
        parser.ParseStateQL Sample.userSource = Returned (m, None)
        /\ db.mkSession (list string)
             [Sample.userTableSQL; Sample.userFriendsSQL]
             [Sample.userTableSQL; Sample.userFriendsSQL]
           = fst (db.GenerateSchema Sample.keepCase (list string) Sample.acceptAll m
                    (db.mkSession (list string) [] []))
        /\ main.JSON 200 "message" "Schema generated successfully"
           = match snd (db.GenerateSchema Sample.keepCase (list string) Sample.acceptAll m
                          (db.mkSession (list string) [] [])) with
             | None => main.JSON 200 "message" "Schema generated successfully"
             | Some e => main.JSON 500 "error" ("Failed to generate schema: " +:+ e)
             end)
  /\ main.postSchema Sample.keepCase (list string) Sample.acceptAll
       (Some (Spec.unlines ["Task:"; "- x is action thru put(files"]))
       (db.mkSession (list string) [] [])
     = Panicked.
Proof.
  split.
  - apply (proj2 (proj2 (postSchema_answers Sample.keepCase (list string) Sample.acceptAll
             (Some Sample.userSource) (db.mkSession (list string) [] [])))
           (db.mkSession (list string)
              [Sample.userTableSQL; Sample.userFriendsSQL]
              [Sample.userTableSQL; Sample.userFriendsSQL])
           (main.JSON 200 "message" "Schema generated successfully")).
    vm_compute. reflexivity.
  - apply (proj1 (proj2 (postSchema_answers Sample.keepCase (list string) Sample.acceptAll
             (Some (Spec.unlines ["Task:"; "- x is action thru put(files"]))
             (db.mkSession (list string) [] [])))).
    eexists. split; [reflexivity|]. vm_compute. reflexivity.
Defined.

Lemma postSchema_succeeds_witness :
  exists m s',
    parser.ParseStateQL Sample.userSource = Returned (m, None)
    /\ main.postSchema Sample.keepCase (list string) Sample.acceptAll
         (Some Sample.userSource) (db.mkSession (list string) [] [])
       = Returned (s', main.JSON 200 "message" "Schema generated successfully")
    /\ db.issued (list string) s'
       = db.issued (list string) (db.mkSession (list string) [] [])
         ++ Spec.statements Sample.keepCase m.
Proof.
  apply (postSchema_succeeds Sample.keepCase (list string) Sample.acceptAll
           Sample.userSource (db.mkSession (list string) [] [])).
  - vm_compute. reflexivity.
  - intros q d. reflexivity.
Defined.
